(** * tsrank: ranking a tsvector by a tsquery

    A shallow embedding of [src/common/backend/utils/adt/tsrank.cpp]:
    the lexeme lookup [find_wordentry], the operand preparation
    [sort_and_uniq_items], the standard rankers [calc_rank_or] and
    [calc_rank_and] with their dispatcher [calc_rank], the document
    representation [get_docrep], the cover search [cover] and the
    cover-density ranker [calc_rank_cd].

    Conventions of the embedding.
    - [int], [int4] and array indices are [Z] or [nat]; every integer
      the rankers compute on a well-formed vector stays far below 2^31
      (position values below 2^14, at most 256 positions per entry),
      so no wrap-around occurs and none is written.
    - [float] and [double] are the real numbers [R]: the arithmetic is
      the exact one, rounding is not modelled.
    - [ereport(ERROR, ...)] is the [Error] constructor of [result].
    - The host call [check_stack_depth] at the top of [cover] returns
      or aborts the whole call; it is not modelled, so the embedding
      describes the calls it lets through and says nothing on whether
      the host aborts one.
    - Pointers into the entry array and into the document representation
      are indices; the shared dummy position vector [pos_null_ptr] is a
      constructor of its own, so that pointer identity with it is kept. *)

From Stdlib Require Import ZArith List Bool Lia Arith.
From Stdlib Require Import Strings.Byte.
From Stdlib Require Import Reals Lra Psatz.
From Stdlib Require Import QArith Qreals.
From Stdlib Require Import Sorting.Sorted Sorting.Permutation.
Import ListNotations.

Close Scope Q_scope.
Close Scope R_scope.
Open Scope Z_scope.

Set Implicit Arguments.

(* ================================================================= *)
(** ** Data model *)

(** A position is a 16 bit word. *)
Definition WordEntryPos := Z.

(** Modelled from the spec: the packing macros of [tsearch/ts_type.h]
    are not part of the ranking source.  A position is a pair
    [(pos : 0..MAX_POS, class : 0..3)] held in one 16 bit word: the
    position in the low 14 bits, [MAXENTRYPOS = 2^14] being the
    reserved bound, and the weight class in the two bits above. *)
Definition MAXENTRYPOS : Z := Z.shiftl 1 14.
Definition WEP_GETWEIGHT (x : WordEntryPos) : Z := Z.shiftr x 14.
Definition WEP_GETPOS (x : WordEntryPos) : Z := Z.land x 16383.
Definition WEP_SETPOS (x : WordEntryPos) (v : Z) : WordEntryPos :=
  Z.lor (Z.land x 49152) (Z.land v 16383).
Definition WEP_SETWEIGHT (x : WordEntryPos) (v : Z) : WordEntryPos :=
  Z.lor (Z.shiftl v 14) (Z.land x 16383).

(** [mkpos p c] packs position [p] with weight class [c]. *)
Definition mkpos (p c : Z) : WordEntryPos := WEP_SETWEIGHT (WEP_SETPOS 0 p) c.

(** A lexeme entry of a document vector. *)
Record WordEntry := mkWordEntry {
  lexeme : list byte;
  haspos : bool;
  posdata : list WordEntryPos
}.

Definition TSVector := list WordEntry.

(** [POSDATALEN(t, e)]: the number of stored positions, 0 without
    position data. *)
Definition POSDATALEN (e : WordEntry) : Z :=
  if haspos e then Z.of_nat (length (posdata e)) else 0.

Inductive Oper := OP_NOT | OP_AND | OP_OR.

(** A query operand: its string in the operand pool and the prefix
    flag. *)
Record QueryOperand := mkOperand {
  operand_str : list byte;
  prefix : bool
}.

(** An item of the flattened query: an operand ([QI_VAL]) or an operator
    ([QI_OPR]) with the offset of its left argument. *)
Inductive QueryItem :=
| QI_VAL (o : QueryOperand)
| QI_OPR (oper : Oper) (left : nat).

Definition TSQuery := list QueryItem.

(** Errors raised through [ereport]. *)
Inductive error :=
| ArrayNotOneDimensional
| ArrayTooShort
| ArrayContainsNulls
| WeightOutOfRange.

Inductive result (A : Type) :=
| Ok (a : A)
| Error (e : error).
Arguments Error {A} e.

(* ================================================================= *)
(** ** String comparison *)

(** [memcmp] on the first [n] bytes, as the sign of the difference of
    the first bytes that differ (bytes are unsigned). *)
Fixpoint memcmp (a b : list byte) (n : nat) {struct n} : Z :=
  match n with
  | O => 0
  | S n' =>
      match a, b with
      | x :: a', y :: b' =>
          match N.compare (Byte.to_N x) (Byte.to_N y) with
          | Eq => memcmp a' b' n'
          | Lt => -1
          | Gt => 1
          end
      | _, _ => 0
      end
  end%Z.

(** Modelled from the spec: [tsCompareString] is declared in
    [tsearch/ts_utils.h] and is not part of the ranking source.  It
    compares bytewise over the length of the shorter side; without
    [prefix] the length breaks the tie, with [prefix] the strings are
    equal as soon as the first is a prefix of the second. *)
Definition tsCompareString (a b : list byte) (pfx : bool) : Z :=
  let lena := length a in
  let lenb := length b in
  if (lena =? 0)%nat then
    if pfx then 0 else if (0 <? lenb)%nat then -1 else 0
  else if (lenb =? 0)%nat then
    if (0 <? lena)%nat then 1 else 0
  else
    let cmp := memcmp a b (Nat.min lena lenb) in
    if pfx then
      if (cmp =? 0) && (lenb <? lena)%nat then 1 else cmp
    else if (cmp =? 0) && negb (lena =? lenb)%nat then
      if (lena <? lenb)%nat then -1 else 1
    else cmp.

Definition dummy_entry : WordEntry := mkWordEntry [] false [].

(** [WordECompareQueryItem(e, q, p, i, m)] with [p] the entry at index
    [k]. *)
Definition WordECompareQueryItem (t : TSVector) (k : nat)
    (item : QueryOperand) (m : bool) : Z :=
  tsCompareString (operand_str item) (lexeme (nth k t dummy_entry)) m.

(* ================================================================= *)
(** ** Lexeme lookup: [find_wordentry] *)

(** State of the binary search loop. *)
Record bs_state := mkBs {
  stop_low : nat;
  stop_high : nat;
  stop_middle : nat;
  bs_nitem : nat
}.

(** The [while (stop_low < stop_high)] loop.  [fuel] bounds the number
    of iterations; [stop_high - stop_low] iterations are never
    exceeded. *)
Fixpoint bs_loop (fuel : nat) (t : TSVector) (item : QueryOperand)
    (s : bs_state) : bs_state :=
  match fuel with
  | O => s
  | S fuel' =>
      if (stop_low s <? stop_high s)%nat then
        let mid := (stop_low s + (stop_high s - stop_low s) / 2)%nat in
        let difference := WordECompareQueryItem t mid item false in
        if (difference =? 0)%Z then
          mkBs (stop_low s) mid mid 1
        else if (difference >? 0)%Z then
          bs_loop fuel' t item (mkBs (mid + 1) (stop_high s) mid (bs_nitem s))
        else
          bs_loop fuel' t item (mkBs (stop_low s) mid mid (bs_nitem s))
      else s
  end.

(** The forward scan of the prefix case: counts the entries from index
    [k] on that compare equal under the prefix rule. *)
Fixpoint prefix_run (item : QueryOperand) (es : list WordEntry) : nat :=
  match es with
  | [] => 0%nat
  | e :: es' =>
      if tsCompareString (operand_str item) (lexeme e) true =? 0
      then S (prefix_run item es')
      else 0%nat
  end.

(** [find_wordentry]: [Some (first, nitem)] for the entry pointer
    [stop_high] and [*nitem > 0], [None] for [NULL]. *)
Definition find_wordentry (t : TSVector) (item : QueryOperand)
    : option (nat * nat) :=
  let s0 := mkBs 0 (length t) (length t) 0 in
  let s := bs_loop (length t) t item s0 in
  let '(middle, nitem) :=
    if prefix item then
      let middle :=
        if (stop_high s <=? stop_low s)%nat then stop_high s
        else stop_middle s in
      (middle, prefix_run item (skipn middle t))
    else (stop_middle s, bs_nitem s) in
  if (0 <? nitem)%nat then Some (stop_high s, nitem) else None.

(** The entries [first, first + nitem) of the vector. *)
Definition entry_run (t : TSVector) (first nitem : nat) : list WordEntry :=
  firstn nitem (skipn first t).

(* ================================================================= *)
(** ** Operand preparation: [sort_and_uniq_items] *)

Definition compare_query_operand (a b : QueryOperand) : Z :=
  tsCompareString (operand_str a) (operand_str b) false.

(** The operands of the query, in query order. *)
Fixpoint collect_operands (q : TSQuery) : list QueryOperand :=
  match q with
  | [] => []
  | QI_VAL o :: q' => o :: collect_operands q'
  | QI_OPR _ _ :: q' => collect_operands q'
  end.

(** [qsort_arg] is modelled by a stable insertion sort; the order in
    which it leaves operands that compare equal is not fixed by the
    source. *)
Fixpoint insert_operand (x : QueryOperand) (l : list QueryOperand)
    : list QueryOperand :=
  match l with
  | [] => [x]
  | y :: l' =>
      if compare_query_operand x y <=? 0 then x :: y :: l'
      else y :: insert_operand x l'
  end.

Definition sort_operands (l : list QueryOperand) : list QueryOperand :=
  fold_right insert_operand [] l.

(** The duplicate removal: an operand is kept when it differs from the
    last operand kept. *)
Fixpoint uniq_from (prev : QueryOperand) (l : list QueryOperand)
    : list QueryOperand :=
  match l with
  | [] => []
  | x :: l' =>
      if negb (compare_query_operand x prev =? 0)
      then x :: uniq_from x l'
      else uniq_from prev l'
  end.

Definition sort_and_uniq_items (q : TSQuery) : list QueryOperand :=
  let res := collect_operands q in
  if (length res <? 2)%nat then res
  else match sort_operands res with
       | [] => []
       | x :: l => x :: uniq_from x l
       end.

(* ================================================================= *)
(** ** Weights *)

Open Scope R_scope.

(** [static float weights[] = {0.1f, 0.2f, 0.4f, 1.0f}] *)
Definition weights : list R := [0.1; 0.2; 0.4; 1.0].
Arguments weights : simpl never.

(** [wpos(wep)]: [w[WEP_GETWEIGHT(wep)]] *)
Definition wpos (w : list R) (wep : WordEntryPos) : R :=
  nth (Z.to_nat (WEP_GETWEIGHT wep)) w 0.

Definition RANK_NO_NORM : Z := 0.
Definition RANK_NORM_LOGLENGTH : Z := 1.
Definition RANK_NORM_LENGTH : Z := 2.
Definition RANK_NORM_EXTDIST : Z := 4.
Definition RANK_NORM_UNIQ : Z := 8.
Definition RANK_NORM_LOGUNIQ : Z := 16.
Definition RANK_NORM_RDIVRPLUS1 : Z := 32.
Definition DEF_NORM_METHOD : Z := RANK_NO_NORM.

(** [method & flag] as a truth value. *)
Definition has_flag (method flag : Z) : bool :=
  negb (Z.land method flag =? 0)%Z.

(** Returns a weight of a word collocation. *)
Definition word_distance (w : Z) : R :=
  if (w >? 100)%Z then 1e-30
  else 1 / (1.005 + 0.05 * exp (IZR w / 1.5 - 2)).

Definition cnt_length (t : TSVector) : Z :=
  fold_left
    (fun len e =>
       let clen := POSDATALEN e in
       if (clen =? 0)%Z then (len + 1)%Z else (len + clen)%Z)
    t 0%Z.

(** An array of weights handed to the entry points: its number of
    dimensions and its elements, [None] for a null. *)
Record ArrayType := mkArray {
  ARR_NDIM : Z;
  arr_elems : list (option R)
}.

Definition array_contains_nulls (a : ArrayType) : bool :=
  existsb (fun x => match x with None => true | Some _ => false end)
          (arr_elems a).

Definition arr_data (a : ArrayType) (i : nat) : R :=
  match nth i (arr_elems a) None with Some x => x | None => 0 end.

(** The loop of [get_weights] over the four classes, from class [i]. *)
Fixpoint get_weights_loop (arrdata : nat -> R) (i n : nat)
    : result (list R) :=
  match n with
  | O => Ok []
  | S n' =>
      let wsi := if Rge_dec (arrdata i) 0 then arrdata i
                 else nth i weights 0 in
      if Rgt_dec wsi 1.0 then Error WeightOutOfRange
      else match get_weights_loop arrdata (S i) n' with
           | Ok ws => Ok (wsi :: ws)
           | Error e => Error e
           end
  end.

Definition get_weights (win : option ArrayType) : result (list R) :=
  match win with
  | None => Ok weights
  | Some a =>
      if negb (ARR_NDIM a =? 1)%Z then Error ArrayNotOneDimensional
      else if (length (arr_elems a) <? length weights)%nat
           then Error ArrayTooShort
      else if array_contains_nulls a then Error ArrayContainsNulls
      else get_weights_loop (arr_data a) 0 (length weights)
  end.

(* ================================================================= *)
(** ** Standard ranker *)

(** The dummy position array used when [haspos] is false, as
    [calc_rank_or] and [get_docrep] leave it: one position, the zero
    word. *)
Definition pos_null_data : list WordEntryPos := [0%Z].

(** The position list of an entry in [calc_rank_or] and [get_docrep]. *)
Definition entry_positions (e : WordEntry) : list WordEntryPos :=
  if haspos e then posdata e else pos_null_data.

(** State of the loop over the positions of one entry in
    [calc_rank_or]. *)
Record or_state := mkOr {
  resj : R;
  wjm : R;
  jm : Z
}.

(** [for (j = 0; j < dimt; j++)], from index [j] on. *)
Fixpoint or_positions (w : list R) (post : list WordEntryPos) (j : Z)
    (s : or_state) : or_state :=
  match post with
  | [] => s
  | p :: post' =>
      let resj' := resj s + wpos w p / IZR ((j + 1) * (j + 1)) in
      if Rgt_dec (wpos w p) (wjm s)
      then or_positions w post' (j + 1) (mkOr resj' (wpos w p) j)
      else or_positions w post' (j + 1) (mkOr resj' (wjm s) (jm s))
  end.

(** What one entry adds to [res] in [calc_rank_or]. *)
Definition or_entry (w : list R) (e : WordEntry) : R :=
  let s := or_positions w (entry_positions e) 0 (mkOr 0 (-1) 0) in
  (wjm s + resj s - wjm s / IZR ((jm s + 1) * (jm s + 1))) / 1.64493406685.

(** The body of [for (i = 0; i < size; i++)] in [calc_rank_or]. *)
Definition or_operand (w : list R) (t : TSVector) (res : R)
    (item : QueryOperand) : R :=
  match find_wordentry t item with
  | None => res
  | Some (first, nitem) =>
      fold_left (fun res e => res + or_entry w e)
                (entry_run t first nitem) res
  end.

Definition calc_rank_or (w : list R) (t : TSVector) (q : TSQuery) : R :=
  let item := sort_and_uniq_items q in
  let size := length item in
  let res := fold_left (or_operand w t) item 0 in
  if (0 <? size)%nat then res / INR size else res.

(** A position vector as [calc_rank_and] holds it in [pos[]]: the
    vector of an entry, or the shared dummy [pos_null_ptr]. *)
Inductive posvec :=
| pos_null_ptr
| POSVECPTR (e : WordEntry).

(** [npos] and [pos[]] of a position vector; the dummy holds the single
    position [MAXENTRYPOS - 1] set by [WEP_SETPOS]. *)
Definition posvec_data (pv : posvec) : list WordEntryPos :=
  match pv with
  | pos_null_ptr => [WEP_SETPOS 0%Z (MAXENTRYPOS - 1)%Z]
  | POSVECPTR e => posdata e
  end.

Definition is_pos_null (pv : posvec) : bool :=
  match pv with pos_null_ptr => true | POSVECPTR _ => false end.

(** The innermost body of [calc_rank_and], for [post[l]] of [pos[i]]
    and [ct[p]] of [pos[k]]. *)
Definition and_pair (w : list R) (posi posk : posvec) (res : R)
    (postl ctp : WordEntryPos) : R :=
  let dist := Z.abs (WEP_GETPOS postl - WEP_GETPOS ctp)%Z in
  if negb (dist =? 0)%Z
     || ((dist =? 0)%Z && (is_pos_null posi || is_pos_null posk))
  then
    let dist := if (dist =? 0)%Z then MAXENTRYPOS else dist in
    let curw := sqrt (wpos w postl * wpos w ctp * word_distance dist) in
    if Rlt_dec res 0 then curw else 1 - (1 - res) * (1 - curw)
  else res.

(** The loops over [l] and [p]. *)
Definition and_product (w : list R) (posi posk : posvec) (res : R) : R :=
  fold_left
    (fun res postl =>
       fold_left (fun res ctp => and_pair w posi posk res postl ctp)
                 (posvec_data posk) res)
    (posvec_data posi) res.

(** [for (k = 0; k < i; k++)] *)
Definition and_earlier (w : list R) (pos : nat -> option posvec)
    (i : nat) (posi : posvec) (res : R) : R :=
  fold_left
    (fun res k =>
       match pos k with
       | None => res
       | Some posk => and_product w posi posk res
       end)
    (seq 0 i) res.

Definition set_pos (pos : nat -> option posvec) (i : nat) (pv : posvec)
    : nat -> option posvec :=
  fun k => if (k =? i)%nat then Some pv else pos k.

(** The body of [while (entry - firstentry < nitem)]. *)
Definition and_entry (w : list R) (i : nat)
    (s : (nat -> option posvec) * R) (e : WordEntry)
    : (nat -> option posvec) * R :=
  let posi := if haspos e then POSVECPTR e else pos_null_ptr in
  let pos := set_pos (fst s) i posi in
  (pos, and_earlier w pos i posi (snd s)).

(** The body of [for (i = 0; i < size; i++)]. *)
Definition and_operand (w : list R) (t : TSVector)
    (item : list QueryOperand) (s : (nat -> option posvec) * R) (i : nat)
    : (nat -> option posvec) * R :=
  match find_wordentry t (nth i item (mkOperand [] false)) with
  | None => s
  | Some (first, nitem) =>
      fold_left (and_entry w i) (entry_run t first nitem) s
  end.

Definition calc_rank_and (w : list R) (t : TSVector) (q : TSQuery) : R :=
  let item := sort_and_uniq_items q in
  let size := length item in
  if (size <? 2)%nat then calc_rank_or w t q
  else snd (fold_left (and_operand w t item) (seq 0 size)
                      (fun _ => None, -1)).

(** The test on the root of the query in [calc_rank]. *)
Definition root_is_and (q : TSQuery) : bool :=
  match q with
  | QI_OPR OP_AND _ :: _ => true
  | _ => false
  end.

(** The normalisations of [calc_rank], in source order. *)
Definition norm_loglength (method : Z) (t : TSVector) (res : R) : R :=
  if has_flag method RANK_NORM_LOGLENGTH && (0 <? length t)%nat
  then res / (ln (IZR (cnt_length t + 1)) / ln 2) else res.

Definition norm_length (method : Z) (t : TSVector) (res : R) : R :=
  if has_flag method RANK_NORM_LENGTH then
    let len := cnt_length t in
    if (len >? 0)%Z then res / IZR len else res
  else res.

Definition norm_uniq (method : Z) (t : TSVector) (res : R) : R :=
  if has_flag method RANK_NORM_UNIQ && (0 <? length t)%nat
  then res / INR (length t) else res.

Definition norm_loguniq (method : Z) (t : TSVector) (res : R) : R :=
  if has_flag method RANK_NORM_LOGUNIQ && (0 <? length t)%nat
  then res / (ln (INR (length t + 1)) / ln 2) else res.

Definition norm_rdivrplus1 (method : Z) (res : R) : R :=
  if has_flag method RANK_NORM_RDIVRPLUS1 then res / (res + 1) else res.

Definition calc_rank_norm (method : Z) (t : TSVector) (res : R) : R :=
  norm_rdivrplus1 method
    (norm_loguniq method t
       (norm_uniq method t
          (norm_length method t
             (norm_loglength method t res)))).

(** [if (res < 0) res = 1e-20f] *)
Definition clamp_negative (res : R) : R :=
  if Rlt_dec res 0 then 1e-20 else res.

Definition calc_rank (w : list R) (t : TSVector) (q : TSQuery)
    (method : Z) : R :=
  if (length t =? 0)%nat || (length q =? 0)%nat then 0
  else
    let res := if root_is_and q then calc_rank_and w t q
               else calc_rank_or w t q in
    calc_rank_norm method t (clamp_negative res).

(* ================================================================= *)
(** ** Cover-density ranker *)

(** An occurrence of the document representation: the query items
    matching the lexeme, as indices into the query, the weight class and
    the position. *)
Record DocRepresentation := mkDoc {
  doc_item : list nat;
  wclass : Z;
  doc_pos : Z
}.

Definition dummy_doc : DocRepresentation := mkDoc [] 0 0.

(** [qr->operandexist], one flag per query item. *)
Definition operandexist := list bool.

Fixpoint set_exists (ex : operandexist) (k : nat) : operandexist :=
  match ex, k with
  | [], _ => []
  | _ :: ex', O => true :: ex'
  | b :: ex', S k' => b :: set_exists ex' k'
  end.

(** [QR_GET_OPERAND_EXISTS] *)
Definition get_exists (ex : operandexist) (k : nat) : bool := nth k ex false.

Definition is_val (q : TSQuery) (k : nat) : bool :=
  match nth_error q k with
  | Some (QI_VAL _) => true
  | _ => false
  end.

Definition operand_at (q : TSQuery) (k : nat) : QueryOperand :=
  match nth_error q k with
  | Some (QI_VAL o) => o
  | _ => mkOperand [] false
  end.

(** The loop over [k] of [get_docrep]: the items of the query that are
    item [i] or an operand with the string of item [i]. *)
Definition same_items (q : TSQuery) (i : nat) : list nat :=
  filter
    (fun k =>
       (k =? i)%nat
       || (is_val q k
           && (compare_query_operand (operand_at q k) (operand_at q i) =? 0)%Z))
    (seq 0 (length q)).

(** The loop over the positions of one entry in [get_docrep]: the first
    position builds the item list and marks its items, the later ones
    share the list. *)
Definition docrep_entry (q : TSQuery) (i : nat)
    (s : list DocRepresentation * operandexist) (e : WordEntry)
    : list DocRepresentation * operandexist :=
  match entry_positions e with
  | [] => s
  | post =>
      let items := same_items q i in
      (fst s ++ map (fun p => mkDoc items (WEP_GETWEIGHT p) (WEP_GETPOS p))
                    post,
       fold_left set_exists items (snd s))
  end.

(** The body of [for (i = 0; i < qr->query->size; i++)]. *)
Definition docrep_item (t : TSVector) (q : TSQuery)
    (s : list DocRepresentation * operandexist) (i : nat)
    : list DocRepresentation * operandexist :=
  if negb (is_val q i) then s
  else if get_exists (snd s) i then s
  else match find_wordentry t (operand_at q i) with
       | None => s
       | Some (first, nitem) =>
           fold_left (docrep_entry q i) (entry_run t first nitem) s
       end.

(** [compareDocR] *)
Definition compareDocR (a b : DocRepresentation) : Z :=
  if (doc_pos a =? doc_pos b)%Z then 0%Z
  else if (doc_pos a >? doc_pos b)%Z then 1%Z else (-1)%Z.

(** [qsort] is modelled by a stable insertion sort; the order in which
    it leaves occurrences of one position is not fixed by the source. *)
Fixpoint insert_doc (x : DocRepresentation) (l : list DocRepresentation)
    : list DocRepresentation :=
  match l with
  | [] => [x]
  | y :: l' =>
      if (compareDocR x y <=? 0)%Z then x :: y :: l'
      else y :: insert_doc x l'
  end.

Definition sort_doc (l : list DocRepresentation) : list DocRepresentation :=
  fold_right insert_doc [] l.

(** [get_docrep]: [None] for [NULL]; [*doclen] is the length of the
    list.  The flags of [qr] it leaves behind are returned too. *)
Definition get_docrep (t : TSVector) (q : TSQuery) (ex : operandexist)
    : option (list DocRepresentation) * operandexist :=
  let s := fold_left (docrep_item t q) (seq 0 (length q)) ([], ex) in
  match fst s with
  | [] => (None, snd s)
  | _ => (Some (sort_doc (fst s)), snd s)
  end.

(** [Extention]: [begin] and [end] are indices into the document
    representation, [None] for the null pointer [memset_s] leaves. *)
Record Extention := mkExt {
  ext_pos : nat;
  ext_p : Z;
  ext_q : Z;
  ext_begin : option nat;
  ext_end : option nat
}.

(** The [for] loop of [cover] over the items of an occurrence. *)
Definition mark_items (q : TSQuery) (ex : operandexist)
    (d : DocRepresentation) : operandexist :=
  fold_left (fun ex k => if is_val q k then set_exists ex k else ex)
            (doc_item d) ex.

Section Cover.

(** The evaluator [TS_execute] is not part of the ranking source.  Its
    callback [check_condition_query_operand] reads the flag of an
    operand in [operandexist]; the evaluator is given the query, these
    flags and its third argument. *)
Variable TS_execute : TSQuery -> operandexist -> bool -> bool.

Variable query : TSQuery.

(** The upward scan: the index of the first occurrence, from [idx] on,
    at which the query holds. *)
Fixpoint cover_up (doc : list DocRepresentation) (idx : nat)
    (ex : operandexist) : option nat :=
  match doc with
  | [] => None
  | d :: doc' =>
      let ex' := mark_items query ex d in
      if TS_execute query ex' false then Some idx
      else cover_up doc' (S idx) ex'
  end.

(** The downward scan over [n] occurrences, from index [ptr] down: the
    index of the first occurrence at which the query holds. *)
Fixpoint cover_down (doc : list DocRepresentation) (n : nat) (ptr : nat)
    (ex : operandexist) : option nat :=
  match n with
  | O => None
  | S n' =>
      let ex' := mark_items query ex (nth ptr doc dummy_doc) in
      if TS_execute query ex' true then Some ptr
      else cover_down doc n' (ptr - 1) ex'
  end.

Definition clear_exists : operandexist := repeat false (length query).

(** [cover]: [Some (found, ext)] for the value returned and the state
    left in [*ext]; [fuel] bounds the depth of the recursion and [None]
    is returned when it is used up.  The call of [check_stack_depth]
    that opens the function is left out. *)
Fixpoint cover (fuel : nat) (doc : list DocRepresentation)
    (ext : Extention) : option (bool * Extention) :=
  match fuel with
  | O => None
  | S fuel' =>
      let ext1 := mkExt (ext_pos ext) 2147483647 0
                        (ext_begin ext) (ext_end ext) in
      let up := cover_up (skipn (ext_pos ext) doc) (ext_pos ext)
                         clear_exists in
      let found_ext :=
        match up with
        | Some u =>
            let d := nth u doc dummy_doc in
            if (doc_pos d >? ext_q ext1)%Z
            then Some (u, mkExt (ext_pos ext1) (ext_p ext1) (doc_pos d)
                                (ext_begin ext1) (Some u))
            else None
        | None => None
        end in
      match found_ext with
      | None => Some (false, ext1)
      | Some (lastpos, ext2) =>
          let down := cover_down doc (S lastpos - ext_pos ext) lastpos
                                 clear_exists in
          let '(ptr1, ext3) :=
            match down with
            | Some l =>
                let d := nth l doc dummy_doc in
                (S l,
                 if (doc_pos d <? ext_p ext2)%Z
                 then mkExt (ext_pos ext2) (doc_pos d) (ext_q ext2)
                            (Some l) (ext_end ext2)
                 else ext2)
            | None => (ext_pos ext, ext2)
            end in
          if (ext_p ext3 <=? ext_q ext3)%Z
          then Some (true, mkExt ptr1 (ext_p ext3) (ext_q ext3)
                                 (ext_begin ext3) (ext_end ext3))
          else cover fuel' doc
                 (mkExt (S (ext_pos ext3)) (ext_p ext3) (ext_q ext3)
                        (ext_begin ext3) (ext_end ext3))
      end
  end.

End Cover.

(** The loop of [calc_rank_cd] over the four classes, from class [i]:
    the inverse weights. *)
Fixpoint invws_loop (arrdata : list R) (i n : nat) : result (list R) :=
  match n with
  | O => Ok []
  | S n' =>
      let v := if Rge_dec (nth i arrdata 0) 0 then nth i arrdata 0
               else nth i weights 0 in
      if Rgt_dec v 1.0 then Error WeightOutOfRange
      else match invws_loop arrdata (S i) n' with
           | Ok l => Ok (1.0 / v :: l)
           | Error e => Error e
           end
  end.

(** The accumulators of the loop over the covers. *)
Record cd_state := mkCd {
  wdoc : R;
  sum_dist : R;
  prev_ext_pos : R;
  n_ext_ent : Z
}.

Definition ptr_index (p : option nat) : nat :=
  match p with Some i => i | None => 0%nat end.

(** The body of [while (cover(doc, doclen, &qr, &ext))]. *)
Definition cd_extent (invws : list R) (doc : list DocRepresentation)
    (ext : Extention) (s : cd_state) : cd_state :=
  let b := ptr_index (ext_begin ext) in
  let e := ptr_index (ext_end ext) in
  let inv_sum :=
    fold_left (fun acc d => acc + nth (Z.to_nat (wclass d)) invws 0)
              (firstn (S e - b) (skipn b doc)) 0 in
  let width := (Z.of_nat e - Z.of_nat b)%Z in
  let cpos := IZR (width + 1) / inv_sum in
  let n_noise := ((ext_q ext - ext_p ext) - width)%Z in
  let n_noise := if (n_noise <? 0)%Z then Z.quot width 2 else n_noise in
  let wdoc' := wdoc s + cpos / IZR (1 + n_noise) in
  let cur_ext_pos := IZR (ext_q ext + ext_p ext) / 2.0 in
  let sum_dist' :=
    if (n_ext_ent s >? 0)%Z then
      if Rgt_dec cur_ext_pos (prev_ext_pos s)
      then sum_dist s + 1.0 / (cur_ext_pos - prev_ext_pos s)
      else sum_dist s
    else sum_dist s in
  mkCd wdoc' sum_dist' cur_ext_pos (n_ext_ent s + 1).

(** The normalisations of [calc_rank_cd] that differ from those of
    [calc_rank]. *)
Definition cd_norm_loglength (method : Z) (t : TSVector) (res : R) : R :=
  if has_flag method RANK_NORM_LOGLENGTH && (0 <? length t)%nat
  then res / ln (IZR (cnt_length t + 1)) else res.

Definition cd_norm_extdist (method : Z) (s : cd_state) (res : R) : R :=
  if has_flag method RANK_NORM_EXTDIST && (n_ext_ent s >? 0)%Z then
    if Rgt_dec (sum_dist s) 0 then res / (IZR (n_ext_ent s) / sum_dist s)
    else res
  else res.

Definition calc_rank_cd_norm (method : Z) (t : TSVector) (s : cd_state)
    : R :=
  norm_rdivrplus1 method
    (norm_loguniq method t
       (norm_uniq method t
          (cd_norm_extdist method s
             (norm_length method t
                (cd_norm_loglength method t (wdoc s)))))).

Section CoverDensity.

Variable TS_execute : TSQuery -> operandexist -> bool -> bool.

(** [while (cover(doc, doclen, &qr, &ext))]: every cover found moves
    [ext.pos] forward, at most [doclen] covers are found, and [fuel]
    bounds their number.  [cover] is given the fuel [S doclen], which it
    never uses up. *)
Fixpoint cd_loop (fuel : nat) (query : TSQuery) (invws : list R)
    (doc : list DocRepresentation) (ext : Extention) (s : cd_state)
    : cd_state :=
  match fuel with
  | O => s
  | S fuel' =>
      match cover TS_execute query (S (length doc)) doc ext with
      | Some (true, ext') =>
          cd_loop fuel' query invws doc ext' (cd_extent invws doc ext' s)
      | _ => s
      end
  end.

Definition calc_rank_cd (arrdata : list R) (txt : TSVector)
    (query : TSQuery) (method : Z) : result R :=
  match invws_loop arrdata 0 (length weights) with
  | Error e => Error e
  | Ok invws =>
      match fst (get_docrep txt query (repeat false (length query))) with
      | None => Ok 0
      | Some doc =>
          let s := cd_loop (S (length doc)) query invws doc
                           (mkExt 0 0 0 None None) (mkCd 0 0 0 0) in
          Ok (calc_rank_cd_norm method txt s)
      end
  end.

End CoverDensity.

(** Modelled from the spec: the evaluator [TS_execute] is an external
    collaborator of the cover search and its code is not part of the
    ranking source.  On a query made of a single operand it answers
    what the callback reports for this operand, the flag of item 0; in
    strict mode an operand whose flag is not set holds too. *)
Definition TS_execute_operand (q : TSQuery) (ex : operandexist)
    (strict : bool) : bool :=
  get_exists ex 0 || strict.

(* ================================================================= *)
(** ** Specification of the lexeme lookup *)

(** The bytewise order of lexemes. *)
Fixpoint lexcmp (a b : list byte) : comparison :=
  match a, b with
  | [], [] => Eq
  | [], _ :: _ => Lt
  | _ :: _, [] => Gt
  | x :: a', y :: b' =>
      match N.compare (Byte.to_N x) (Byte.to_N y) with
      | Eq => lexcmp a' b'
      | c => c
      end
  end.

(** [begins_with s l]: the string [l] begins with [s]. *)
Fixpoint begins_with (s l : list byte) : bool :=
  match s, l with
  | [], _ => true
  | _ :: _, [] => false
  | x :: s', y :: l' => Byte.eqb x y && begins_with s' l'
  end.

(** The vector is sorted by lexeme, without duplicates. *)
Definition entry_lt (e1 e2 : WordEntry) : Prop :=
  lexcmp (lexeme e1) (lexeme e2) = Lt.

Definition sorted_vector (t : TSVector) : Prop := StronglySorted entry_lt t.

(** What a linear scan of the vector finds for a prefix operand. *)
Definition linear_scan (t : TSVector) (item : QueryOperand) : list WordEntry :=
  filter (fun e => begins_with (operand_str item) (lexeme e)) t.

(** The entries a result of [find_wordentry] designates. *)
Definition found_run (t : TSVector) (r : option (nat * nat)) : list WordEntry :=
  match r with
  | Some (first, nitem) => entry_run t first nitem
  | None => []
  end.

Definition sign_of (c : comparison) : Z :=
  match c with Eq => 0%Z | Lt => (-1)%Z | Gt => 1%Z end.

(** The entry at index [k] of the vector. *)
Definition lexeme_at (t : TSVector) (k : nat) : list byte :=
  lexeme (nth k t dummy_entry).

(** The loop invariant of the binary search: the operand lies above the
    entries before [stop_low] and below the entries from [stop_high]
    on. *)
Definition bs_inv (t : TSVector) (item : QueryOperand) (s : bs_state)
    : Prop :=
  (stop_low s <= stop_high s <= length t)%nat /\
  (forall k, (k < stop_low s)%nat ->
             lexcmp (operand_str item) (lexeme_at t k) = Gt) /\
  (forall k, (stop_high s <= k < length t)%nat ->
             lexcmp (operand_str item) (lexeme_at t k) = Lt).

(** What the binary search establishes: the entries before [stop_high]
    lie below the operand, and either the entry at [stop_high] is the
    operand, or no entry is and those from [stop_high] on lie above. *)
Definition bs_post (t : TSVector) (item : QueryOperand) (n0 : nat)
    (s : bs_state) : Prop :=
  (stop_high s <= length t)%nat /\
  (forall k, (k < stop_high s)%nat ->
             lexcmp (operand_str item) (lexeme_at t k) = Gt) /\
  ((bs_nitem s = 1%nat /\ stop_middle s = stop_high s /\
    (stop_high s < length t)%nat /\
    lexeme_at t (stop_high s) = operand_str item /\
    (forall k, (stop_high s < k < length t)%nat ->
               lexcmp (operand_str item) (lexeme_at t k) = Lt))
   \/
   (bs_nitem s = n0 /\ (stop_high s <= stop_low s)%nat /\
    (forall k, (stop_high s <= k < length t)%nat ->
               lexcmp (operand_str item) (lexeme_at t k) = Lt))).

(* ================================================================= *)
(** ** Specification of the rankers *)

(** Weight tables with every weight in [0, 1]: those [get_weights]
    returns. *)
Definition weights_in_range (w : list R) : Prop :=
  forall k, 0 <= nth k w 0 <= 1.

(** What the loop over the positions of an entry keeps true: [resj] is
    not negative, and once a position was seen [wjm] is a weight and
    its share [wjm / (jm + 1)^2] is part of [resj]. *)
Definition or_inv (s : or_state) : Prop :=
  0 <= resj s /\
  ((wjm s = -1 /\ jm s = 0%Z /\ resj s = 0) \/
   (0 <= wjm s /\ (0 <= jm s)%Z /\
    wjm s / IZR ((jm s + 1) * (jm s + 1)) <= resj s)).

(** An entry whose first position carries its greatest weight. *)
Definition first_is_max (w : list R) (e : WordEntry) : Prop :=
  match entry_positions e with
  | [] => True
  | p0 :: rest => Forall (fun p => wpos w p <= wpos w p0) rest
  end.

(** The sum of [1 / (k * k)] over the [n] integers [k] after [j]: what
    the loop of [calc_rank_or] adds to [resj] from index [j] on for
    positions of weight 1. *)
Fixpoint basel (j : Z) (n : nat) : R :=
  match n with
  | O => 0
  | S n' => 1 / IZR ((j + 1) * (j + 1)) + basel (j + 1) n'
  end.

(** The same sum over the rationals, to compute it. *)
Fixpoint baselQ (j : Z) (n : nat) : Q :=
  match n with
  | O => 0%Q
  | S n' =>
      Qred (Qplus (Qmake 1 (Z.to_pos ((j + 1) * (j + 1))))
                  (baselQ (j + 1) n'))
  end.

(** A bound of the tail of the series from [x] on. *)
Definition basel_tail (x : R) : R :=
  1 / x - 1 / (2 * (x * x)) + 1 / (6 * (x * x * x)).

(** The pairs of positions as the specification words them: the
    distance of a pair, whether the pair is skipped, the distance its
    weight is computed from, and its weight. *)
Definition pair_dist (a b : WordEntryPos) : Z :=
  Z.abs (WEP_GETPOS a - WEP_GETPOS b)%Z.

Definition pair_skipped (posi posk : posvec) (a b : WordEntryPos) : bool :=
  (pair_dist a b =? 0)%Z
  && negb (is_pos_null posi) && negb (is_pos_null posk).

Definition pair_curw (w : list R) (a b : WordEntryPos) : R :=
  let d := if (pair_dist a b =? 0)%Z then MAXENTRYPOS else pair_dist a b in
  sqrt (wpos w a * wpos w b * word_distance d).

(** The probabilistic OR of the weights of the pairs, the first one
    taken as it is; -1 when there is none. *)
Definition prob_or (curws : list R) : R :=
  match curws with
  | [] => -1
  | c :: cs => fold_left (fun res curw => 1 - (1 - res) * (1 - curw)) cs c
  end.

(** The weights of the pairs that are not skipped, in the order in which
    [calc_rank_and] visits the pairs. *)
Definition product_curws (w : list R) (posi posk : posvec) : list R :=
  flat_map
    (fun a =>
       flat_map
         (fun b => if pair_skipped posi posk a b then []
                   else [pair_curw w a b])
         (posvec_data posk))
    (posvec_data posi).

Definition earlier_curws (w : list R) (pos : nat -> option posvec)
    (i : nat) (posi : posvec) : list R :=
  flat_map
    (fun k => match pos k with
              | None => []
              | Some posk => product_curws w posi posk
              end)
    (seq 0 i).

Definition entry_curws (w : list R) (i : nat)
    (s : (nat -> option posvec) * list R) (e : WordEntry)
    : (nat -> option posvec) * list R :=
  let posi := if haspos e then POSVECPTR e else pos_null_ptr in
  let pos := set_pos (fst s) i posi in
  (pos, snd s ++ earlier_curws w pos i posi).

Definition operand_curws (w : list R) (t : TSVector)
    (item : list QueryOperand) (s : (nat -> option posvec) * list R)
    (i : nat) : (nat -> option posvec) * list R :=
  match find_wordentry t (nth i item (mkOperand [] false)) with
  | None => s
  | Some (first, nitem) =>
      fold_left (entry_curws w i) (entry_run t first nitem) s
  end.

Definition and_curws (w : list R) (t : TSVector) (q : TSQuery) : list R :=
  let item := sort_and_uniq_items q in
  snd (fold_left (operand_curws w t item) (seq 0 (length item))
                 (fun _ => None, [])).

(** The update of [res] in [calc_rank_and]. *)
Definition and_step (res curw : R) : R :=
  if Rlt_dec res 0 then curw else 1 - (1 - res) * (1 - curw).

(** The state of [calc_rank_and] and the weights collected so far. *)
Definition and_rel (s : (nat -> option posvec) * R)
    (c : (nat -> option posvec) * list R) : Prop :=
  fst s = fst c /\ snd s = fold_left and_step (snd c) (-1).

(* ================================================================= *)
(** ** Specification of the cover search *)

(** What [cover] promises about the state it leaves when it reports a
    cover. *)
Definition cover_post (found : bool) (ext' : Extention) : Prop :=
  found = true ->
  (ext_p ext' <= ext_q ext')%Z /\
  exists b, ext_begin ext' = Some b /\ (b < ext_pos ext')%nat.

(* ================================================================= *)
(** ** Example data *)

Definition cat : list byte := ["c"; "a"; "t"]%byte.

Definition catch : list byte := ["c"; "a"; "t"; "c"; "h"]%byte.

Definition dog : list byte := ["d"; "o"; "g"]%byte.

Definition doc_S1 : TSVector := [mkWordEntry cat true [mkpos 1 3]].
Definition query_S1 : TSQuery := [QI_VAL (mkOperand cat false)].

Definition doc_S3 : TSVector :=
  [mkWordEntry ["a"]%byte true [mkpos 10 3];
   mkWordEntry ["b"]%byte true [mkpos 11 3]].
Definition query_S3 : TSQuery :=
  [QI_OPR OP_AND 2; QI_VAL (mkOperand ["b"]%byte false);
   QI_VAL (mkOperand ["a"]%byte false)].

Definition doc_prefix : TSVector :=
  [mkWordEntry cat true [mkpos 1 3]; mkWordEntry catch true [mkpos 5 3]].
Definition query_prefix : TSQuery := [QI_VAL (mkOperand cat true)].

Definition doc_S6 : TSVector :=
  [mkWordEntry cat true [mkpos 1 3]; mkWordEntry catch true [mkpos 5 2];
   mkWordEntry dog true [mkpos 9 1]].

(** A vector that is not sorted. *)
Definition doc_unsorted : TSVector :=
  [mkWordEntry dog true [mkpos 9 1]; mkWordEntry cat true [mkpos 1 3];
   mkWordEntry catch true [mkpos 5 2]].

(** A vector without position data. *)
Definition doc_stripped : TSVector :=
  [mkWordEntry cat false []; mkWordEntry dog false []].

(** A vector that holds the first term of [query_S3] only. *)
Definition doc_a : TSVector := [mkWordEntry ["a"]%byte true [mkpos 10 3]].

(** Evaluates the tests of the method bits on closed arguments. *)
Ltac eval_flags :=
  repeat match goal with
         | |- context [has_flag ?m ?f] =>
             let b := eval vm_compute in (has_flag m f) in
             change (has_flag m f) with b
         | |- context [(0 <? length ?t)%nat] =>
             let b := eval vm_compute in (0 <? length t)%nat in
             change (0 <? length t)%nat with b
         end.

(* ================================================================= *)
(** ** Specification of the operand preparation *)

(** The order [compare_query_operand] sorts the operands by: the
    bytewise order of their strings, the prefix flag left aside. *)
Definition operand_lt (a b : QueryOperand) : Prop :=
  lexcmp (operand_str a) (operand_str b) = Lt.

Definition operand_le (a b : QueryOperand) : Prop :=
  lexcmp (operand_str a) (operand_str b) <> Gt.

(* ================================================================= *)
(** ** Entry points *)

(** Sequencing of a computation that may raise. *)
Definition bind {A B : Type} (r : result A) (f : A -> result B) : result B :=
  match r with
  | Ok a => f a
  | Error e => Error e
  end.

Section EntryPoints.

(** The host hook [ts_check_feature_disable] is not part of the ranking
    source: it returns, or raises before any work is done. *)
Variable ts_check_feature_disable : result unit.

Variable TS_execute : TSQuery -> operandexist -> bool -> bool.

Definition ts_rank_wttf (win : ArrayType) (txt : TSVector) (query : TSQuery)
    (method : Z) : result R :=
  bind ts_check_feature_disable (fun _ =>
  bind (get_weights (Some win)) (fun w =>
  Ok (calc_rank w txt query method))).

Definition ts_rank_wtt (win : ArrayType) (txt : TSVector) (query : TSQuery)
    : result R :=
  bind ts_check_feature_disable (fun _ =>
  bind (get_weights (Some win)) (fun w =>
  Ok (calc_rank w txt query DEF_NORM_METHOD))).

Definition ts_rank_ttf (txt : TSVector) (query : TSQuery) (method : Z)
    : result R :=
  bind ts_check_feature_disable (fun _ =>
  bind (get_weights None) (fun w =>
  Ok (calc_rank w txt query method))).

Definition ts_rank_tt (txt : TSVector) (query : TSQuery) : result R :=
  bind ts_check_feature_disable (fun _ =>
  bind (get_weights None) (fun w =>
  Ok (calc_rank w txt query DEF_NORM_METHOD))).

Definition ts_rankcd_wttf (win : ArrayType) (txt : TSVector)
    (query : TSQuery) (method : Z) : result R :=
  bind ts_check_feature_disable (fun _ =>
  bind (get_weights (Some win)) (fun w =>
  calc_rank_cd TS_execute w txt query method)).

Definition ts_rankcd_wtt (win : ArrayType) (txt : TSVector)
    (query : TSQuery) : result R :=
  bind ts_check_feature_disable (fun _ =>
  bind (get_weights (Some win)) (fun w =>
  calc_rank_cd TS_execute w txt query DEF_NORM_METHOD)).

Definition ts_rankcd_ttf (txt : TSVector) (query : TSQuery) (method : Z)
    : result R :=
  bind ts_check_feature_disable (fun _ =>
  bind (get_weights None) (fun w =>
  calc_rank_cd TS_execute w txt query method)).

Definition ts_rankcd_tt (txt : TSVector) (query : TSQuery) : result R :=
  bind ts_check_feature_disable (fun _ =>
  bind (get_weights None) (fun w =>
  calc_rank_cd TS_execute w txt query DEF_NORM_METHOD)).

End EntryPoints.

(** The array a weight table makes when it is handed in again. *)
Definition array_of_weights (w : list R) : ArrayType :=
  mkArray 1 (map Some w).

(* ================================================================= *)
(** ** Specification of the document representation *)

(** The order [compareDocR] sorts the occurrences by. *)
Definition doc_le (a b : DocRepresentation) : Prop :=
  (doc_pos a <= doc_pos b)%Z.

(** An occurrence as [get_docrep] builds it for the query [q]: a
    position below [MAXENTRYPOS] and a list of items that is not empty
    and holds operands of the query only. *)
Definition docrep_wf (q : TSQuery) (d : DocRepresentation) : Prop :=
  (0 <= doc_pos d < MAXENTRYPOS)%Z /\
  doc_item d <> [] /\
  Forall (fun k => is_val q k = true) (doc_item d).

(** A cover as [cover] leaves it in [ext'], started from [ext]. *)
Definition cover_extent (doc : list DocRepresentation)
    (ext ext' : Extention) : Prop :=
  exists b e,
    ext_begin ext' = Some b /\ ext_end ext' = Some e /\
    (ext_pos ext <= b <= e)%nat /\ (e < length doc)%nat /\
    ext_pos ext' = S b /\
    ext_p ext' = doc_pos (nth b doc dummy_doc) /\
    ext_q ext' = doc_pos (nth e doc dummy_doc) /\
    (ext_p ext' <= ext_q ext')%Z /\ (0 < ext_q ext')%Z.


(** The flags [cover] has set when its upward scan, started at
    occurrence [start], has visited occurrence [u]; and those it has
    set when its downward scan, started at occurrence [u], has visited
    occurrence [l]. *)
Definition flags_up (q : TSQuery) (doc : list DocRepresentation)
    (start u : nat) : operandexist :=
  fold_left (mark_items q) (firstn (S u - start) (skipn start doc))
            (clear_exists q).

Definition flags_down (q : TSQuery) (doc : list DocRepresentation)
    (u l : nat) : operandexist :=
  fold_left (mark_items q)
            (map (fun k => nth k doc dummy_doc) (rev (seq l (S u - l))))
            (clear_exists q).

(* ================================================================= *)
(** * Properties *)

Unset Implicit Arguments.

(** ** Weights *)

Lemma weights_le_1 (i : nat) : nth i weights 0 <= 1.
Proof.
  unfold weights.
  do 4 (destruct i as [|i]; [simpl; lra|]).
  destruct i; simpl; lra.
Qed.

Lemma weights_nonneg (i : nat) : 0 <= nth i weights 0.
Proof.
  unfold weights.
  do 4 (destruct i as [|i]; [simpl; lra|]).
  destruct i; simpl; lra.
Qed.

Lemma get_weights_loop_nth (arrdata : nat -> R) (n i : nat) (ws : list R) :
  get_weights_loop arrdata i n = Ok ws ->
  length ws = n /\
  forall k, (k < n)%nat -> 0 <= nth k ws 0 <= 1.
Proof.
  revert i ws. induction n as [|n IH]; intros i ws H;
    cbn [get_weights_loop] in H.
  - inversion H; subst. split; [reflexivity|]. intros k Hk. lia.
  - destruct (Rgt_dec _ 1.0) as [Hgt|Hle]; [discriminate|].
    destruct (get_weights_loop arrdata (S i) n) as [ws'|e] eqn:E;
      [|discriminate].
    inversion H; subst ws; clear H.
    destruct (IH _ _ E) as [Hlen Hk]. split; [simpl; lia|].
    intros [|k] Hlt; cbn [nth].
    + destruct (Rge_dec (arrdata i) 0); [lra|].
      split; [exact (weights_nonneg i)|exact (weights_le_1 i)].
    + apply Hk. lia.
Qed.

(** A table returned by [get_weights] has its four weights in [0, 1]. *)
Lemma get_weights_range (win : option ArrayType) (w : list R) :
  get_weights win = Ok w ->
  forall k, (k < 4)%nat -> 0 <= nth k w 0 <= 1.
Proof.
  destruct win as [a|]; unfold get_weights.
  - destruct (negb (ARR_NDIM a =? 1)%Z); [discriminate|].
    destruct (length (arr_elems a) <? length weights)%nat; [discriminate|].
    destruct (array_contains_nulls a); [discriminate|].
    intros H. apply (get_weights_loop_nth _ _ _ _ H).
  - intros H; inversion H; subst. intros k _.
    split; [apply weights_nonneg|apply weights_le_1].
Qed.

Lemma get_weights_in_range (win : option ArrayType) (w : list R) :
  get_weights win = Ok w -> weights_in_range w.
Proof.
  intros H k. destruct (Nat.lt_ge_cases k 4) as [Hk|Hk].
  - apply (get_weights_range _ _ H k Hk).
  - assert (Hl : length w = 4%nat).
    { destruct win as [a|]; unfold get_weights in H.
      - destruct (negb (ARR_NDIM a =? 1)%Z); [discriminate|].
        destruct (length (arr_elems a) <? length weights)%nat;
          [discriminate|].
        destruct (array_contains_nulls a); [discriminate|].
        apply (get_weights_loop_nth _ _ _ _ H).
      - inversion H. reflexivity. }
    rewrite nth_overflow by lia. lra.
Qed.

Lemma weights_default_in_range : weights_in_range weights.
Proof. intros k. split; [apply weights_nonneg|apply weights_le_1]. Qed.

Lemma invws_loop_ok (w : list R) (n i : nat) :
  (forall k, (i <= k < i + n)%nat -> nth k w 0 <= 1) ->
  exists l, invws_loop w i n = Ok l.
Proof.
  revert i. induction n as [|n IH]; intros i H; cbn [invws_loop].
  - eauto.
  - destruct (Rgt_dec _ 1.0) as [Hgt|_].
    + exfalso. destruct (Rge_dec (nth i w 0) 0).
      * assert (Hi : nth i w 0 <= 1) by (apply H; lia). lra.
      * pose proof (weights_le_1 i). lra.
    + destruct (IH (S i)) as [l Hl].
      * intros k Hk. apply H. lia.
      * rewrite Hl. eauto.
Qed.

(** ** Lookups that find nothing *)

Lemma find_wordentry_nil (item : QueryOperand) : find_wordentry [] item = None.
Proof. unfold find_wordentry. simpl. destruct (prefix item); reflexivity. Qed.

Lemma nth_error_collect (q : TSQuery) (i : nat) (o : QueryOperand) :
  nth_error q i = Some (QI_VAL o) -> In o (collect_operands q).
Proof.
  revert i. induction q as [|x q IH]; intros [|i] H; simpl in H;
    try discriminate.
  - inversion H; subst. simpl. auto.
  - destruct x; simpl; eauto.
Qed.

Lemma docrep_item_nomatch (t : TSVector) (q : TSQuery)
    (s : list DocRepresentation * operandexist) (i : nat) :
  (forall o, In o (collect_operands q) -> find_wordentry t o = None) ->
  docrep_item t q s i = s.
Proof.
  intros H. unfold docrep_item, is_val, operand_at.
  destruct (nth_error q i) as [[o|op l]|] eqn:E; simpl; try reflexivity.
  destruct (get_exists (snd s) i); [reflexivity|].
  rewrite (H o); [reflexivity|]. eapply nth_error_collect; eauto.
Qed.

Lemma get_docrep_nomatch (t : TSVector) (q : TSQuery) (ex : operandexist) :
  (forall o, In o (collect_operands q) -> find_wordentry t o = None) ->
  get_docrep t q ex = (None, ex).
Proof.
  intros H. unfold get_docrep.
  assert (E : forall l s, fold_left (docrep_item t q) l s = s).
  { induction l as [|i l IH]; intros s; simpl; [reflexivity|].
    rewrite docrep_item_nomatch by exact H. apply IH. }
  rewrite E. reflexivity.
Qed.

(** C10: when no operand of the query is found in the vector the
    document representation is empty and the cover-density ranker
    returns 0 before the cover loop and before any normalisation,
    whatever the method and whatever the weights [get_weights] hands
    over. *)
Theorem calc_rank_cd_nomatch_zero
    (TS_execute : TSQuery -> operandexist -> bool -> bool)
    (win : option ArrayType) (w : list R) (t : TSVector) (q : TSQuery)
    (method : Z) :
  get_weights win = Ok w ->
  t <> [] -> q <> [] ->
  (forall o, In o (collect_operands q) -> find_wordentry t o = None) ->
  fst (get_docrep t q (repeat false (length q))) = None /\
  calc_rank_cd TS_execute w t q method = Ok 0.
Proof.
  intros Hw _ _ H.
  rewrite (get_docrep_nomatch _ _ _ H). split; [reflexivity|].
  unfold calc_rank_cd.
  destruct (invws_loop_ok w 4 0) as [l Hl].
  { intros k Hk. apply (get_weights_range _ _ Hw). lia. }
  simpl length. rewrite Hl.
  rewrite (get_docrep_nomatch _ _ _ H). reflexivity.
Qed.

Lemma calc_rank_cd_nomatch_zero_witness :
  fst (get_docrep doc_S3 query_S1 (repeat false (length query_S1))) = None /\
  calc_rank_cd TS_execute_operand weights doc_S3 query_S1 63 = Ok 0.
Proof.
  apply (calc_rank_cd_nomatch_zero TS_execute_operand None weights doc_S3
           query_S1 63); [reflexivity|discriminate|discriminate|].
  intros o [<-|[]]. reflexivity.
Defined.

(** C1: on an empty vector or an empty query both rankers return 0 and
    raise no error, for every method: [calc_rank] for every weight
    table, [calc_rank_cd] for every weight table [get_weights] hands
    over, the tables it is called with. *)
Theorem rank_empty_zero
    (TS_execute : TSQuery -> operandexist -> bool -> bool)
    (win : option ArrayType) (w : list R) (t : TSVector) (q : TSQuery)
    (method : Z) :
  get_weights win = Ok w ->
  length t = 0%nat \/ length q = 0%nat ->
  (forall w', calc_rank w' t q method = 0) /\
  calc_rank_cd TS_execute w t q method = Ok 0.
Proof.
  intros Hw He. split.
  - intros w'. unfold calc_rank. destruct He as [-> | ->]; simpl; [reflexivity|].
    rewrite orb_true_r. reflexivity.
  - unfold calc_rank_cd.
    destruct (invws_loop_ok w 4 0) as [l Hl].
    { intros k Hk. apply (get_weights_range _ _ Hw). lia. }
    simpl length. rewrite Hl.
    rewrite get_docrep_nomatch; [reflexivity|].
    destruct He as [He | He].
    + destruct t; [|discriminate]. intros o _. apply find_wordentry_nil.
    + destruct q; [|discriminate]. intros o [].
Qed.

Lemma rank_empty_zero_witness :
  (forall w', calc_rank w' [] query_S1 0 = 0) /\
  calc_rank_cd TS_execute_operand weights [] query_S1 0 = Ok 0.
Proof.
  apply (rank_empty_zero TS_execute_operand None weights [] query_S1 0);
    [reflexivity|left; reflexivity].
Defined.

(** ** Dispatch of the standard ranker *)

(** C4: on a non-empty vector and a non-empty query [calc_rank]
    normalises the result of [calc_rank_and] when the root of the query
    is an AND operator and the result of [calc_rank_or] for every other
    root; and [calc_rank_and] returns what [calc_rank_or] returns when
    the query has fewer than two unique operands. *)
Theorem calc_rank_dispatch (w : list R) (t : TSVector) (q : TSQuery)
    (method : Z) :
  t <> [] -> q <> [] ->
  ((exists lft q', q = QI_OPR OP_AND lft :: q') ->
   calc_rank w t q method =
   calc_rank_norm method t (clamp_negative (calc_rank_and w t q))) /\
  (~ (exists lft q', q = QI_OPR OP_AND lft :: q') ->
   calc_rank w t q method =
   calc_rank_norm method t (clamp_negative (calc_rank_or w t q))) /\
  ((length (sort_and_uniq_items q) < 2)%nat ->
   calc_rank_and w t q = calc_rank_or w t q).
Proof.
  intros Ht Hq.
  assert (Hne : (length t =? 0)%nat || (length q =? 0)%nat = false).
  { destruct t; [congruence|]. destruct q; [congruence|]. reflexivity. }
  unfold calc_rank. rewrite Hne. repeat split.
  - intros (lft & q' & ->). reflexivity.
  - intros Hn.
    assert (Hr : root_is_and q = false).
    { destruct q as [|[o|[] lft] q']; try reflexivity.
      exfalso. apply Hn. eauto. }
    rewrite Hr. reflexivity.
  - intros Hs. unfold calc_rank_and.
    apply Nat.ltb_lt in Hs. rewrite Hs. reflexivity.
Qed.

Lemma calc_rank_dispatch_witness :
  calc_rank weights [dummy_entry] [QI_OPR OP_AND 2; QI_VAL (mkOperand [] false);
                                   QI_VAL (mkOperand [] false)] 0 =
  calc_rank_norm 0 [dummy_entry]
    (clamp_negative
       (calc_rank_or weights [dummy_entry]
          [QI_OPR OP_AND 2; QI_VAL (mkOperand [] false);
           QI_VAL (mkOperand [] false)])).
Proof.
  pose proof (calc_rank_dispatch weights [dummy_entry]
                [QI_OPR OP_AND 2; QI_VAL (mkOperand [] false);
                 QI_VAL (mkOperand [] false)] 0
                ltac:(discriminate) ltac:(discriminate)) as (Hand & _ & Hfew).
  rewrite Hand by eauto.
  rewrite Hfew by (vm_compute; lia).
  reflexivity.
Defined.

(** ** Self normalisation *)

Lemma has_flag_rdivrplus1 : has_flag 32 RANK_NORM_RDIVRPLUS1 = true.
Proof. reflexivity. Qed.

(** C9, as stated, fails: applied to 1 the map [r / (r + 1)] gives 1/2,
    applied again it gives 1/3. *)
Lemma rdivrplus1_not_idempotent :
  norm_rdivrplus1 32 (norm_rdivrplus1 32 1) <> norm_rdivrplus1 32 1.
Proof.
  unfold norm_rdivrplus1. rewrite has_flag_rdivrplus1. lra.
Qed.

(** C9, amended: for every score [r >= 0] a second application of
    the map [r / (r + 1)] never gives more than the first; it gives the
    same at [r = 0], and strictly less for every [r >= 1], where the
    first application gives at least 1/2 and the second divides by at
    least 3/2.  Scores between 0 and 1 are left out of the strict part:
    [res] is a single-precision number, and for a score as small as the
    floor [1e-20f] the sum [res + 1] is 1, so that the division changes
    nothing there. *)
Theorem rdivrplus1_twice (r : R) :
  0 <= r ->
  norm_rdivrplus1 32 (norm_rdivrplus1 32 r) <= norm_rdivrplus1 32 r /\
  (r = 0 ->
   norm_rdivrplus1 32 (norm_rdivrplus1 32 r) = norm_rdivrplus1 32 r) /\
  (1 <= r ->
   norm_rdivrplus1 32 (norm_rdivrplus1 32 r) < norm_rdivrplus1 32 r).
Proof.
  intros Hr. unfold norm_rdivrplus1. rewrite has_flag_rdivrplus1.
  set (y := r / (r + 1)).
  assert (Hy : 0 <= y).
  { unfold y, Rdiv. apply Rmult_le_pos; [exact Hr|].
    apply Rlt_le, Rinv_0_lt_compat. lra. }
  assert (D : y - y / (y + 1) = y * y / (y + 1)) by (field; lra).
  assert (P : 0 <= y * y / (y + 1)).
  { unfold Rdiv. apply Rmult_le_pos; [nra|].
    apply Rlt_le, Rinv_0_lt_compat. lra. }
  split; [lra|]. split.
  - intros E. assert (Y0 : y = 0) by (unfold y; rewrite E; lra).
    rewrite Y0. lra.
  - intros H1.
    assert (Hh : 1 / 2 <= y).
    { unfold y. apply (Rmult_le_reg_r (r + 1)); [lra|].
      unfold Rdiv at 2. rewrite Rmult_assoc, Rinv_l by lra. lra. }
    assert (0 < y * y / (y + 1)).
    { apply Rdiv_lt_0_compat; nra. }
    lra.
Qed.

Lemma rdivrplus1_twice_witness :
  norm_rdivrplus1 32 (norm_rdivrplus1 32 1) < norm_rdivrplus1 32 1.
Proof.
  destruct (rdivrplus1_twice 1) as [_ [_ H]]; [lra|]. apply H. lra.
Defined.

(** ** The dummy position of an entry without positions *)

Lemma or_positions_single (w : list R) (p : WordEntryPos) :
  -1 < wpos w p ->
  or_positions w [p] 0 (mkOr 0 (-1) 0) = mkOr (0 + wpos w p / 1) (wpos w p) 0.
Proof.
  intros H. cbn [or_positions resj wjm jm].
  destruct (Rgt_dec (wpos w p) (-1)) as [_|Hn]; [|exfalso; lra].
  reflexivity.
Qed.

Lemma or_entry_nopos (w : list R) (e : WordEntry) :
  haspos e = false -> 0 <= nth 0 w 0 ->
  or_entry w e = nth 0 w 0 / 1.64493406685.
Proof.
  intros Hp Hw. unfold or_entry, entry_positions, pos_null_data.
  rewrite Hp.
  assert (E : wpos w 0%Z = nth 0 w 0) by reflexivity.
  rewrite or_positions_single by (rewrite E; lra).
  cbn [resj wjm jm]. rewrite E.
  change (IZR ((0 + 1) * (0 + 1))) with 1. field. lra.
Qed.

(** C8, as stated, fails: the dummy position of an entry without
    positions has weight class 0, not 3, and with the default weights a
    query for the entry scores 0.1 / 1.64493406685, not
    1.0 / 1.64493406685. *)
Lemma or_dummy_position_not_highest :
  let e := mkWordEntry cat false [] in
  let q := [QI_VAL (mkOperand cat false)] in
  map WEP_GETWEIGHT (entry_positions e) <> [3%Z] /\
  calc_rank_or weights [e] q <> 1.0 / 1.64493406685.
Proof.
  intros e q. split; [discriminate|].
  assert (E : calc_rank_or weights [e] q = (0 + or_entry weights e) / 1).
  { reflexivity. }
  rewrite E, or_entry_nopos by (try reflexivity; apply weights_nonneg).
  change (nth 0 weights 0) with 0.1. lra.
Qed.

(** C8, amended: for every entry without stored positions the position
    list scored by [calc_rank_or] is the single dummy position with
    position 0 and weight class 0, and the entry adds
    [w[0] / 1.64493406685] to the score: with the default weights the
    single occurrence is scored with the weight 0.1 of the lowest
    class. *)
Theorem or_dummy_position_class0 (w : list R) (e : WordEntry) :
  haspos e = false -> 0 <= nth 0 w 0 ->
  map (fun p => (WEP_GETPOS p, WEP_GETWEIGHT p)) (entry_positions e)
  = [(0%Z, 0%Z)] /\
  map (wpos w) (entry_positions e) = [nth 0 w 0] /\
  or_entry w e = nth 0 w 0 / 1.64493406685 /\
  nth 0 weights 0 = 0.1.
Proof.
  intros Hp Hw. repeat split.
  - unfold entry_positions. rewrite Hp. reflexivity.
  - unfold entry_positions. rewrite Hp. reflexivity.
  - apply or_entry_nopos; assumption.
Qed.

Lemma or_dummy_position_class0_witness :
  or_entry weights (mkWordEntry cat false []) = nth 0 weights 0 / 1.64493406685.
Proof.
  apply (or_dummy_position_class0 weights (mkWordEntry cat false []));
    [reflexivity|apply weights_nonneg].
Defined.

(** ** The logarithm of the length normalisation *)

Lemma ln_2_lt_1 : 0 < ln 2 < 1.
Proof.
  split.
  - rewrite <- ln_1. apply ln_increasing; lra.
  - assert (H : 2 < exp 1).
    { pose proof (exp_ineq1 1). lra. }
    rewrite <- (ln_exp 1). apply ln_increasing; lra.
Qed.

Lemma cnt_length_ge (t : TSVector) : (Z.of_nat (length t) <= cnt_length t)%Z.
Proof.
  unfold cnt_length.
  set (f := fun (len : Z) (e : WordEntry) =>
              let clen := POSDATALEN e in
              if (clen =? 0)%Z then (len + 1)%Z else (len + clen)%Z).
  assert (H : forall l a, (a + Z.of_nat (length l) <= fold_left f l a)%Z).
  { induction l as [|e l IH]; intros a; [simpl; lia|].
    cbn [fold_left length].
    assert (Hf : (a + 1 <= f a e)%Z).
    { unfold f, POSDATALEN. cbv zeta.
      destruct (haspos e); [|simpl; lia].
      destruct (Z.eqb_spec (Z.of_nat (length (posdata e))) 0); lia. }
    specialize (IH (f a e)). lia. }
  apply (H t 0%Z).
Qed.

(** On every non-empty vector the LogLength step of [calc_rank_cd]
    divides by the natural logarithm of [cnt_length + 1], that of
    [calc_rank] by its logarithm in base 2, and the two results differ
    for every score other than 0. *)
Lemma loglength_norms_differ (t : TSVector) (res : R) :
  t <> [] -> res <> 0 ->
  cd_norm_loglength RANK_NORM_LOGLENGTH t res
  = res / ln (IZR (cnt_length t + 1)) /\
  norm_loglength RANK_NORM_LOGLENGTH t res
  = res / (ln (IZR (cnt_length t + 1)) / ln 2) /\
  cd_norm_loglength RANK_NORM_LOGLENGTH t res
  <> norm_loglength RANK_NORM_LOGLENGTH t res.
Proof.
  intros Ht Hres.
  assert (Hlen : (0 <? length t)%nat = true).
  { destruct t; [congruence|reflexivity]. }
  unfold cd_norm_loglength, norm_loglength. rewrite Hlen.
  change (has_flag RANK_NORM_LOGLENGTH RANK_NORM_LOGLENGTH) with true.
  cbn [andb].
  pose proof (cnt_length_ge t) as Hc.
  assert (Hl : (1 <= Z.of_nat (length t))%Z).
  { destruct t; [congruence|]. cbn [length]. lia. }
  set (L := ln (IZR (cnt_length t + 1))).
  assert (HL : 0 < L).
  { unfold L. rewrite <- ln_1. apply ln_increasing; [lra|].
    apply IZR_lt. lia. }
  pose proof ln_2_lt_1 as H2.
  repeat split. intros E.
  assert (E1 : res / (L / ln 2) = res / L * ln 2) by (field; lra).
  rewrite E1 in E.
  assert (E2 : res / L * (1 - ln 2) = 0) by lra.
  apply Rmult_integral in E2 as [E2|E2]; [|lra].
  apply (f_equal (fun x => x * L)) in E2.
  unfold Rdiv in E2. rewrite Rmult_assoc, Rinv_l, Rmult_0_l in E2 by lra.
  lra.
Qed.

Lemma invws_loop_weights :
  invws_loop weights 0 (length weights)
  = Ok [1.0 / 0.1; 1.0 / 0.2; 1.0 / 0.4; 1.0 / 1.0].
Proof.
  change (length weights) with 4%nat. unfold weights.
  cbn [invws_loop nth].
  repeat match goal with
         | |- context [Rge_dec ?a ?b] =>
             destruct (Rge_dec a b); [|exfalso; lra]
         | |- context [Rgt_dec ?a ?b] =>
             destruct (Rgt_dec a b); [exfalso; lra|]
         end.
  reflexivity.
Qed.

Lemma cd_state_S1 (TS_execute : TSQuery -> operandexist -> bool -> bool) :
  TS_execute query_S1 [true] false = true ->
  TS_execute query_S1 [true] true = true ->
  cd_loop TS_execute 2 query_S1 [1.0 / 0.1; 1.0 / 0.2; 1.0 / 0.4; 1.0 / 1.0]
          [mkDoc [0%nat] 3 1] (mkExt 0 0 0 None None) (mkCd 0 0 0 0)
  = mkCd (0 + IZR (0 - 0 + 1) / (0 + 1.0 / 1.0) / IZR (1 + 0)) 0
         (IZR (1 + 1) / 2.0) (0 + 1).
Proof.
  intros Hf Hb.
  assert (C1 : cover TS_execute query_S1 2 [mkDoc [0%nat] 3 1]
                 (mkExt 0 0 0 None None)
               = Some (true, mkExt 1 1 1 (Some 0%nat) (Some 0%nat))).
  { cbn. rewrite Hf. cbn. rewrite Hb. reflexivity. }
  assert (C2 : cover TS_execute query_S1 2 [mkDoc [0%nat] 3 1]
                 (mkExt 1 1 1 (Some 0%nat) (Some 0%nat))
               = Some (false, mkExt 1 2147483647 0 (Some 0%nat) (Some 0%nat))).
  { reflexivity. }
  cbn [cd_loop length]. rewrite C1. rewrite C2.
  reflexivity.
Qed.

Lemma get_docrep_S1 :
  get_docrep doc_S1 query_S1 (repeat false (length query_S1))
  = (Some [mkDoc [0%nat] 3 1], [true]).
Proof. reflexivity. Qed.

Lemma cnt_length_S1 : cnt_length doc_S1 = 1%Z.
Proof. reflexivity. Qed.

(** C2: on the vector [cat:1A] and the query [cat], with the default
    weights, the cover-density score is 1 without normalisation.  With
    the LogLength bit [calc_rank_cd] returns 1 / ln 2, the score divided
    by the natural logarithm of [cnt_length + 1 = 2], where the division
    by the logarithm in base 2, [ln 2 / ln 2 = 1], that [calc_rank]
    performs would leave 1. *)
Theorem calc_rank_cd_loglength_natural
    (TS_execute : TSQuery -> operandexist -> bool -> bool) :
  TS_execute query_S1 [true] false = true ->
  TS_execute query_S1 [true] true = true ->
  calc_rank_cd TS_execute weights doc_S1 query_S1 RANK_NO_NORM = Ok 1 /\
  calc_rank_cd TS_execute weights doc_S1 query_S1 RANK_NORM_LOGLENGTH
  = Ok (1 / ln 2) /\
  1 / ln 2 <> 1 / (ln (IZR (cnt_length doc_S1 + 1)) / ln 2) /\
  norm_loglength RANK_NORM_LOGLENGTH doc_S1 1
  = 1 / (ln (IZR (cnt_length doc_S1 + 1)) / ln 2).
Proof.
  intros Hf Hb.
  pose proof ln_2_lt_1 as Hln.
  unfold calc_rank_cd.
  rewrite invws_loop_weights, get_docrep_S1. cbn [fst length].
  rewrite (cd_state_S1 _ Hf Hb).
  unfold calc_rank_cd_norm, norm_rdivrplus1, norm_loguniq, norm_uniq,
    cd_norm_extdist, norm_length, cd_norm_loglength, norm_loglength.
  rewrite cnt_length_S1.
  eval_flags. cbn [andb wdoc].
  change (IZR (1 + 1)) with 2.
  change (IZR (0 - 0 + 1)) with 1. change (IZR (1 + 0)) with 1.
  assert (E0 : 0 + 1 / (0 + 1.0 / 1.0) / 1 = 1) by lra.
  rewrite E0. repeat split.
  - intros E.
    assert (E1 : ln 2 / ln 2 = 1) by (field; lra).
    rewrite E1 in E.
    assert (E2 : 1 / ln 2 * ln 2 = 1) by (field; lra).
    rewrite E in E2. lra.
Qed.

Lemma calc_rank_cd_loglength_natural_witness :
  calc_rank_cd TS_execute_operand weights doc_S1 query_S1 RANK_NORM_LOGLENGTH
  = Ok (1 / ln 2).
Proof.
  apply (calc_rank_cd_loglength_natural TS_execute_operand); reflexivity.
Defined.

(** ** Cover search *)

Section CoverProperties.

Variable TS_execute : TSQuery -> operandexist -> bool -> bool.
Variable query : TSQuery.

Lemma cover_up_range (doc : list DocRepresentation) (idx : nat)
    (ex : operandexist) (u : nat) :
  cover_up TS_execute query doc idx ex = Some u ->
  (idx <= u < idx + length doc)%nat.
Proof.
  revert idx ex. induction doc as [|d doc IH]; intros idx ex H; simpl in H.
  - discriminate.
  - destruct (TS_execute query (mark_items query ex d) false).
    + inversion H; subst. simpl. lia.
    + apply IH in H. simpl. lia.
Qed.

Lemma cover_down_range (doc : list DocRepresentation) (n ptr : nat)
    (ex : operandexist) (l : nat) :
  cover_down TS_execute query doc n ptr ex = Some l -> (l <= ptr)%nat.
Proof.
  revert ptr ex. induction n as [|n IH]; intros ptr ex H; simpl in H.
  - discriminate.
  - destruct (TS_execute query _ true).
    + inversion H; subst. lia.
    + apply IH in H. lia.
Qed.

Lemma cover_fuel_enough (doc : list DocRepresentation) (fuel : nat) :
  (forall d, In d doc -> (doc_pos d < 2147483647)%Z) ->
  forall ext,
    (length doc - ext_pos ext < fuel)%nat ->
    exists found ext',
      cover TS_execute query fuel doc ext = Some (found, ext') /\
      cover_post found ext'.
Proof.
  intros Hpos. induction fuel as [|fuel IH]; intros ext Hfuel; [lia|].
  cbn [cover].
  destruct (cover_up TS_execute query (skipn (ext_pos ext) doc)
              (ext_pos ext) (clear_exists query)) as [u|] eqn:Eup.
  2:{ eexists _, _. split; [reflexivity|]. intros H; discriminate. }
  apply cover_up_range in Eup. rewrite length_skipn in Eup.
  assert (Hu : (u < length doc)%nat) by lia.
  assert (Hqu : (doc_pos (nth u doc dummy_doc) < 2147483647)%Z).
  { apply Hpos, nth_In, Hu. }
  cbn [ext_q ext_p ext_pos ext_begin ext_end].
  destruct (doc_pos (nth u doc dummy_doc) >? 0)%Z eqn:Eq.
  2:{ eexists _, _. split; [reflexivity|]. intros H; discriminate. }
  destruct (cover_down TS_execute query doc (S u - ext_pos ext) u
              (clear_exists query)) as [l|] eqn:Edown.
  - apply cover_down_range in Edown.
    assert (Hpl : (doc_pos (nth l doc dummy_doc) < 2147483647)%Z).
    { apply Hpos, nth_In. lia. }
    apply Z.ltb_lt in Hpl.
    cbn [ext_q ext_p ext_pos ext_begin ext_end]. rewrite Hpl.
    cbn [ext_q ext_p ext_pos ext_begin ext_end].
    destruct (doc_pos (nth l doc dummy_doc) <=? doc_pos (nth u doc dummy_doc))%Z
      eqn:Ele.
    + eexists _, _. split; [reflexivity|]. intros _.
      cbn [ext_q ext_p ext_pos ext_begin ext_end].
      split; [apply Z.leb_le, Ele|]. exists l. split; [reflexivity|lia].
    + apply IH. cbn [ext_pos]. lia.
  - cbn [ext_q ext_p ext_pos ext_begin ext_end].
    assert (Ele : (2147483647 <=? doc_pos (nth u doc dummy_doc))%Z = false).
    { apply Z.leb_gt, Hqu. }
    rewrite Ele. apply IH. cbn [ext_pos]. lia.
Qed.

(** Fuel left over does not change what [cover] returns. *)
Lemma cover_fuel_mono (doc : list DocRepresentation) (fuel k : nat)
    (ext : Extention) (r : bool * Extention) :
  cover TS_execute query fuel doc ext = Some r ->
  cover TS_execute query (fuel + k) doc ext = Some r.
Proof.
  revert ext. induction fuel as [|fuel IH]; intros ext; [discriminate|].
  cbn [cover Nat.add].
  destruct (cover_up TS_execute query (skipn (ext_pos ext) doc)
              (ext_pos ext) (clear_exists query)) as [u|]; [|auto].
  cbn [ext_q ext_p ext_pos ext_begin ext_end].
  destruct (doc_pos (nth u doc dummy_doc) >? 0)%Z; [|auto].
  destruct (cover_down TS_execute query doc (S u - ext_pos ext) u
              (clear_exists query)) as [l|].
  - destruct (doc_pos (nth l doc dummy_doc) <? 2147483647)%Z;
      cbn [ext_q ext_p ext_pos ext_begin ext_end];
      match goal with |- context [if ?c then _ else _] => destruct c end;
      auto.
  - cbn [ext_q ext_p ext_pos ext_begin ext_end].
    match goal with |- context [if ?c then _ else _] => destruct c end; auto.
Qed.

Lemma cover_down_lower (doc : list DocRepresentation) (n ptr : nat)
    (ex : operandexist) (l : nat) :
  cover_down TS_execute query doc n ptr ex = Some l -> (ptr < l + n)%nat.
Proof.
  revert ptr ex. induction n as [|n IH]; intros ptr ex H; simpl in H.
  - discriminate.
  - destruct (TS_execute query _ true).
    + inversion H; subst. lia.
    + apply IH in H. lia.
Qed.

(** A cover reported moves [ext.pos] forward, within the document
    representation. *)
Lemma cover_progress (doc : list DocRepresentation) (fuel : nat) :
  (forall d, In d doc -> (doc_pos d < 2147483647)%Z) ->
  forall ext ext',
    cover TS_execute query fuel doc ext = Some (true, ext') ->
    (ext_pos ext < ext_pos ext' <= length doc)%nat.
Proof.
  intros Hpos. induction fuel as [|fuel IH]; intros ext ext' H;
    [discriminate|].
  cbn [cover] in H.
  destruct (cover_up TS_execute query (skipn (ext_pos ext) doc)
              (ext_pos ext) (clear_exists query)) as [u|] eqn:Eup;
    [|discriminate].
  apply cover_up_range in Eup. rewrite length_skipn in Eup.
  assert (Hqu : (doc_pos (nth u doc dummy_doc) < 2147483647)%Z).
  { apply Hpos, nth_In. lia. }
  cbn [ext_q ext_p ext_pos ext_begin ext_end] in H.
  destruct (doc_pos (nth u doc dummy_doc) >? 0)%Z; [|discriminate].
  destruct (cover_down TS_execute query doc (S u - ext_pos ext) u
              (clear_exists query)) as [l|] eqn:Edown.
  - pose proof (cover_down_range _ _ _ _ _ Edown) as Hle.
    pose proof (cover_down_lower _ _ _ _ _ Edown) as Hlo.
    assert (Hl : (ext_pos ext <= l < length doc)%nat) by lia.
    revert H. cbn [ext_q ext_p ext_pos ext_begin ext_end].
    destruct (doc_pos (nth l doc dummy_doc) <? 2147483647)%Z;
      cbn [ext_q ext_p ext_pos ext_begin ext_end];
      match goal with |- context [if ?c then _ else _] => destruct c end;
      intros H.
    + inversion H; subst ext'. cbn [ext_pos]. lia.
    + apply IH in H. cbn [ext_pos] in H. lia.
    + inversion H; subst ext'. cbn [ext_pos]. lia.
    + apply IH in H. cbn [ext_pos] in H. lia.
  - cbn [ext_q ext_p ext_pos ext_begin ext_end] in H.
    assert (Ele : (2147483647 <=? doc_pos (nth u doc dummy_doc))%Z = false).
    { apply Z.leb_gt, Hqu. }
    rewrite Ele in H. apply IH in H. cbn [ext_pos] in H. lia.
Qed.

(** The fuel [S doclen] of the loop over the covers is never used up:
    more fuel leaves its result unchanged. *)
Lemma cd_loop_fuel_enough (invws : list R) (doc : list DocRepresentation)
    (fuel k : nat) :
  (forall d, In d doc -> (doc_pos d < 2147483647)%Z) ->
  forall ext s,
    (length doc - ext_pos ext < fuel)%nat ->
    cd_loop TS_execute (fuel + k) query invws doc ext s
    = cd_loop TS_execute fuel query invws doc ext s.
Proof.
  intros Hpos. induction fuel as [|fuel IH]; intros ext s Hf; [lia|].
  cbn [cd_loop Nat.add].
  destruct (cover TS_execute query (S (length doc)) doc ext)
    as [[[|] ext']|] eqn:E; try reflexivity.
  pose proof (cover_progress doc _ Hpos _ _ E) as Hp.
  apply IH. lia.
Qed.

(** C7: the cover search terminates: every candidate it rejects moves
    [ext.pos] one occurrence forward, and [len - ext.pos + 1] attempts
    are enough for it to return, from every state.  When it reports a
    cover, the state it leaves has [p <= q] and its [pos] lies strictly
    after the index [begin] of the cover.  The positions of the
    occurrences are those of a document vector, below [INT_MAX]. *)
Theorem cover_terminates (doc : list DocRepresentation) (ext : Extention) :
  (forall d, In d doc -> (doc_pos d < 2147483647)%Z) ->
  exists found ext',
    cover TS_execute query (S (length doc - ext_pos ext)) doc ext
    = Some (found, ext') /\
    (found = true ->
     (ext_p ext' <= ext_q ext')%Z /\
     exists b, ext_begin ext' = Some b /\ (b < ext_pos ext')%nat).
Proof.
  intros Hpos. apply cover_fuel_enough; [exact Hpos|lia].
Qed.

End CoverProperties.

Lemma cover_terminates_witness :
  exists found ext',
    cover TS_execute_operand query_S1 (S (length [mkDoc [0%nat] 3 1] - 0))
          [mkDoc [0%nat] 3 1] (mkExt 0 0 0 None None)
    = Some (found, ext') /\
    (found = true ->
     (ext_p ext' <= ext_q ext')%Z /\
     exists b, ext_begin ext' = Some b /\ (b < ext_pos ext')%nat).
Proof.
  apply (cover_terminates TS_execute_operand query_S1 [mkDoc [0%nat] 3 1]
           (mkExt 0 0 0 None None)).
  intros d [<-|[]]. reflexivity.
Defined.

(** ** The AND ranker *)

Lemma fold_left_flat_map {A B C : Type} (f : A -> C -> A) (g : B -> list C)
    (l : list B) (a : A) :
  fold_left f (flat_map g l) a
  = fold_left (fun a x => fold_left f (g x) a) l a.
Proof.
  revert a. induction l as [|x l IH]; intros a; simpl; [reflexivity|].
  rewrite fold_left_app. apply IH.
Qed.

Lemma fold_left_ext_in {A B : Type} (f g : A -> B -> A) (l : list B) (a : A) :
  (forall a x, f a x = g a x) -> fold_left f l a = fold_left g l a.
Proof.
  intros H. revert a. induction l as [|x l IH]; intros a; simpl;
    [reflexivity|]. rewrite H. apply IH.
Qed.

Lemma and_pair_step (w : list R) (posi posk : posvec) (res : R)
    (a b : WordEntryPos) :
  and_pair w posi posk res a b
  = if pair_skipped posi posk a b then res
    else and_step res (pair_curw w a b).
Proof.
  unfold and_pair, pair_skipped, pair_curw, and_step, pair_dist.
  destruct (Z.abs (WEP_GETPOS a - WEP_GETPOS b) =? 0)%Z;
    destruct (is_pos_null posi); destruct (is_pos_null posk); reflexivity.
Qed.

Lemma and_product_fold (w : list R) (posi posk : posvec) (res : R) :
  and_product w posi posk res
  = fold_left and_step (product_curws w posi posk) res.
Proof.
  unfold and_product, product_curws.
  rewrite fold_left_flat_map. apply fold_left_ext_in. intros r a.
  rewrite fold_left_flat_map. apply fold_left_ext_in. intros r' b.
  rewrite and_pair_step. destruct (pair_skipped posi posk a b); reflexivity.
Qed.

Lemma and_earlier_fold (w : list R) (pos : nat -> option posvec) (i : nat)
    (posi : posvec) (res : R) :
  and_earlier w pos i posi res
  = fold_left and_step (earlier_curws w pos i posi) res.
Proof.
  unfold and_earlier, earlier_curws.
  rewrite fold_left_flat_map. apply fold_left_ext_in. intros r k.
  destruct (pos k); [apply and_product_fold|reflexivity].
Qed.

Lemma and_entry_rel (w : list R) (i : nat) s c (e : WordEntry) :
  and_rel s c -> and_rel (and_entry w i s e) (entry_curws w i c e).
Proof.
  intros [Hp Hr]. unfold and_rel, and_entry, entry_curws. cbn [fst snd].
  rewrite Hp. split; [reflexivity|].
  rewrite and_earlier_fold, fold_left_app, Hr. reflexivity.
Qed.

Lemma and_operand_rel (w : list R) (t : TSVector) (item : list QueryOperand)
    s c (i : nat) :
  and_rel s c ->
  and_rel (and_operand w t item s i) (operand_curws w t item c i).
Proof.
  intros H. unfold and_operand, operand_curws.
  destruct (find_wordentry t _) as [[first nitem]|]; [|exact H].
  revert s c H. induction (entry_run t first nitem) as [|e l IH];
    intros s c H; simpl; [exact H|].
  apply IH, and_entry_rel, H.
Qed.

Lemma calc_rank_and_fold (w : list R) (t : TSVector) (q : TSQuery) :
  (2 <= length (sort_and_uniq_items q))%nat ->
  calc_rank_and w t q = fold_left and_step (and_curws w t q) (-1).
Proof.
  intros Hs. unfold calc_rank_and, and_curws.
  destruct (Nat.ltb_spec (length (sort_and_uniq_items q)) 2) as [Hlt|_];
    [lia|].
  set (item := sort_and_uniq_items q).
  assert (H : forall l s c, and_rel s c ->
            and_rel (fold_left (and_operand w t item) l s)
                    (fold_left (operand_curws w t item) l c)).
  { induction l as [|i l IH]; intros s c Hr; simpl; [exact Hr|].
    apply IH, and_operand_rel, Hr. }
  apply (H (seq 0 (length item)) (fun _ => None, -1) (fun _ => None, [])).
  split; reflexivity.
Qed.

Lemma word_distance_range (d : Z) : 0 < word_distance d <= 1.
Proof.
  unfold word_distance. destruct (d >? 100)%Z.
  - lra.
  - pose proof (exp_pos (IZR d / 1.5 - 2)) as He.
    set (x := exp (IZR d / 1.5 - 2)) in *.
    assert (Hd : 1 < 1.005 + 0.05 * x) by lra.
    split.
    + apply Rdiv_lt_0_compat; lra.
    + apply (Rmult_le_reg_r (1.005 + 0.05 * x)); [lra|].
      unfold Rdiv. rewrite Rmult_assoc, Rinv_l by lra. lra.
Qed.

Lemma pair_curw_range (w : list R) (a b : WordEntryPos) :
  weights_in_range w -> 0 <= pair_curw w a b <= 1.
Proof.
  intros Hw. unfold pair_curw.
  set (d := if (pair_dist a b =? 0)%Z then MAXENTRYPOS else pair_dist a b).
  pose proof (word_distance_range d) as Hd.
  pose proof (Hw (Z.to_nat (WEP_GETWEIGHT a))) as Ha.
  pose proof (Hw (Z.to_nat (WEP_GETWEIGHT b))) as Hb.
  fold (wpos w a) in Ha. fold (wpos w b) in Hb.
  split; [apply sqrt_pos|].
  rewrite <- sqrt_1. apply sqrt_le_1_alt.
  assert (0 <= wpos w a * wpos w b <= 1) by nra. nra.
Qed.

Lemma and_step_range (res curw : R) :
  0 <= res <= 1 -> 0 <= curw <= 1 ->
  and_step res curw = 1 - (1 - res) * (1 - curw) /\
  0 <= and_step res curw <= 1.
Proof.
  intros Hr Hc. unfold and_step.
  destruct (Rlt_dec res 0); [lra|]. split; [reflexivity|nra].
Qed.

Lemma and_step_prob_or (cs : list R) :
  Forall (fun c => 0 <= c <= 1) cs ->
  fold_left and_step cs (-1) = prob_or cs.
Proof.
  intros H. destruct H as [|c cs Hc Hcs]; [reflexivity|].
  simpl. unfold and_step at 2.
  destruct (Rlt_dec (-1) 0); [|lra].
  revert c Hc. induction Hcs as [|c' cs Hc' Hcs IH]; intros c Hc; simpl;
    [reflexivity|].
  destruct (and_step_range c c' Hc Hc') as [E R].
  rewrite <- E. apply IH, R.
Qed.

Lemma Forall_flat_map_intro {A B : Type} (P : B -> Prop) (g : A -> list B)
    (l : list A) :
  (forall x, Forall P (g x)) -> Forall P (flat_map g l).
Proof.
  intros H. induction l as [|x l IH]; simpl; [constructor|].
  apply Forall_app. split; [apply H|exact IH].
Qed.

Lemma and_curws_range (w : list R) (t : TSVector) (q : TSQuery) :
  weights_in_range w ->
  Forall (fun c => 0 <= c <= 1) (and_curws w t q).
Proof.
  intros Hw. unfold and_curws.
  set (item := sort_and_uniq_items q).
  assert (He : forall pos i posi,
            Forall (fun c => 0 <= c <= 1) (earlier_curws w pos i posi)).
  { intros pos i posi. apply Forall_flat_map_intro. intros k.
    destruct (pos k) as [posk|]; [|constructor].
    apply Forall_flat_map_intro. intros a.
    apply Forall_flat_map_intro. intros b.
    destruct (pair_skipped posi posk a b); constructor;
      [apply pair_curw_range, Hw|constructor]. }
  assert (Ho : forall i s, Forall (fun c => 0 <= c <= 1) (snd s) ->
            Forall (fun c => 0 <= c <= 1)
                   (snd (operand_curws w t item s i))).
  { intros i s Hs. unfold operand_curws.
    destruct (find_wordentry t _) as [[first nitem]|]; [|exact Hs].
    revert s Hs. induction (entry_run t first nitem) as [|e l IH];
      intros s Hs; simpl; [exact Hs|].
    apply IH. unfold entry_curws. cbn [snd].
    apply Forall_app. split; [exact Hs|apply He]. }
  assert (H : forall l s, Forall (fun c => 0 <= c <= 1) (snd s) ->
            Forall (fun c => 0 <= c <= 1)
                   (snd (fold_left (operand_curws w t item) l s))).
  { induction l as [|i l IH]; intros s Hs; simpl; [exact Hs|].
    apply IH, Ho, Hs. }
  apply H. constructor.
Qed.

(** C5: in the AND ranker a pair of positions adds nothing exactly when
    its distance is 0 and neither side is the dummy vector; a distance
    of 0 is replaced by [MAXENTRYPOS] when a side is the dummy vector;
    the weight of a pair is
    [sqrt (w[class_i] * w[class_k] * word_distance dist)], with
    [word_distance d = 1e-30] for [d > 100] and
    [1 / (1.005 + 0.05 * exp (d / 1.5 - 2))] otherwise; and the score of
    a query with two unique operands or more is the weight of the first
    pair, combined with each later weight as
    [1 - (1 - res) * (1 - curw)].  The weights are those [get_weights]
    returns. *)
Theorem calc_rank_and_pairs (w : list R) (t : TSVector) (q : TSQuery) :
  weights_in_range w ->
  (2 <= length (sort_and_uniq_items q))%nat ->
  (forall posi posk res a b,
      (pair_skipped posi posk a b = true <->
       pair_dist a b = 0%Z /\ posi <> pos_null_ptr /\ posk <> pos_null_ptr)
      /\
      (pair_skipped posi posk a b = true ->
       and_pair w posi posk res a b = res) /\
      (pair_skipped posi posk a b = false ->
       and_pair w posi posk res a b
       = if Rlt_dec res 0 then pair_curw w a b
         else 1 - (1 - res) * (1 - pair_curw w a b)) /\
      pair_curw w a b
      = sqrt (wpos w a * wpos w b
              * word_distance (if (pair_dist a b =? 0)%Z then MAXENTRYPOS
                               else pair_dist a b))) /\
  (forall d, word_distance d
             = if (d >? 100)%Z then 1e-30
               else 1 / (1.005 + 0.05 * exp (IZR d / 1.5 - 2))) /\
  calc_rank_and w t q = prob_or (and_curws w t q).
Proof.
  intros Hw Hs. split; [|split].
  - intros posi posk res a b. split; [|split; [|split]].
    + unfold pair_skipped. split.
      * intros H. apply andb_prop in H as [H1 Hk].
        apply andb_prop in H1 as [Hd Hi].
        apply Z.eqb_eq in Hd.
        destruct posi; [discriminate|]. destruct posk; [discriminate|].
        repeat split; [exact Hd|discriminate|discriminate].
      * intros (Hd & Hi & Hk). apply Z.eqb_eq in Hd. rewrite Hd.
        destruct posi; [congruence|]. destruct posk; [congruence|].
        reflexivity.
    + intros H. rewrite and_pair_step, H. reflexivity.
    + intros H. rewrite and_pair_step, H. reflexivity.
    + reflexivity.
  - intros d. reflexivity.
  - rewrite calc_rank_and_fold by exact Hs.
    apply and_step_prob_or, and_curws_range, Hw.
Qed.

Lemma calc_rank_and_pairs_witness :
  calc_rank_and weights doc_S3 query_S3
  = prob_or (and_curws weights doc_S3 query_S3).
Proof.
  apply (calc_rank_and_pairs weights doc_S3 query_S3);
    [exact weights_default_in_range | vm_compute; lia].
Defined.

(** Scenario S3: two terms one position apart. *)
Example calc_rank_and_S3 :
  calc_rank_and weights doc_S3 query_S3
  = sqrt (1.0 * 1.0 * (1 / (1.005 + 0.05 * exp (1 / 1.5 - 2)))).
Proof.
  rewrite calc_rank_and_pairs_witness. reflexivity.
Qed.

(** ** Bounds of the OR ranker *)

Lemma IZR_sq_pos (j : Z) : (0 <= j)%Z -> 0 < IZR ((j + 1) * (j + 1)).
Proof. intros H. apply IZR_lt. nia. Qed.

Lemma basel_nonneg (n : nat) (j : Z) : (0 <= j)%Z -> 0 <= basel j n.
Proof.
  revert j. induction n as [|n IH]; intros j Hj; simpl; [lra|].
  pose proof (IZR_sq_pos j Hj) as Hp.
  pose proof (IH (j + 1)%Z ltac:(lia)) as Hn.
  assert (0 < 1 / IZR ((j + 1) * (j + 1))) by (apply Rdiv_lt_0_compat; lra).
  lra.
Qed.

Lemma basel_app (a b : nat) (j : Z) :
  basel j (a + b) = basel j a + basel (j + Z.of_nat a) b.
Proof.
  revert j. induction a as [|a IH]; intros j.
  - simpl. rewrite Z.add_0_r. lra.
  - cbn [Nat.add basel]. rewrite IH.
    replace (j + 1 + Z.of_nat a)%Z with (j + Z.of_nat (S a))%Z by lia.
    lra.
Qed.

Lemma basel_tail_step (x : R) :
  0 < x ->
  0 < basel_tail x /\
  1 / ((x + 1) * (x + 1)) + basel_tail (x + 1) <= basel_tail x.
Proof.
  intros Hx. unfold basel_tail.
  assert (E : 1 / x - 1 / (2 * (x * x)) + 1 / (6 * (x * x * x))
              = (6 * x * x - 3 * x + 1) / (6 * (x * x * x)))
    by (field; lra).
  assert (D : 1 / x - 1 / (2 * (x * x)) + 1 / (6 * (x * x * x))
              - (1 / ((x + 1) * (x + 1))
                 + (1 / (x + 1) - 1 / (2 * ((x + 1) * (x + 1)))
                    + 1 / (6 * ((x + 1) * (x + 1) * (x + 1)))))
              = 1 / (6 * (x * x * x) * ((x + 1) * (x + 1) * (x + 1))))
    by (field; lra).
  assert (P3 : 0 < x * x * x) by (apply Rmult_lt_0_compat; nra).
  assert (Q3 : 0 < (x + 1) * (x + 1) * (x + 1))
    by (apply Rmult_lt_0_compat; nra).
  split.
  - rewrite E. apply Rdiv_lt_0_compat; nra.
  - assert (0 < 1 / (6 * (x * x * x) * ((x + 1) * (x + 1) * (x + 1)))).
    { apply Rdiv_lt_0_compat; [lra|].
      apply Rmult_lt_0_compat; lra. }
    lra.
Qed.

Lemma basel_le_tail (n : nat) (j : Z) :
  (1 <= j)%Z -> basel j n <= basel_tail (IZR j).
Proof.
  revert j. induction n as [|n IH]; intros j Hj.
  - simpl. apply Rlt_le, basel_tail_step, IZR_lt. lia.
  - cbn [basel].
    pose proof (IH (j + 1)%Z ltac:(lia)) as Hn.
    assert (Hx : 0 < IZR j) by (apply IZR_lt; lia).
    destruct (basel_tail_step (IZR j) Hx) as [_ Hs].
    rewrite mult_IZR, plus_IZR in *. lra.
Qed.

Lemma baselQ_correct (n : nat) (j : Z) :
  (0 <= j)%Z -> Q2R (baselQ j n) = basel j n.
Proof.
  revert j. induction n as [|n IH]; intros j Hj; cbn [baselQ basel].
  - unfold Q2R. simpl. lra.
  - rewrite (Qeq_eqR _ _ (Qred_correct _)), Q2R_plus, IH by lia.
    f_equal. unfold Q2R. cbn [Qnum Qden].
    rewrite Z2Pos.id by nia. lra.
Qed.

Lemma basel_150 : basel 0 150 + basel_tail 150 <= 1.64493406685.
Proof.
  assert (H : (Qplus (baselQ 0 150) (Qmake 134551 20250000)
               <= Qmake 164493406685 100000000000)%Q).
  { apply Qle_bool_imp_le. vm_compute. reflexivity. }
  apply Qle_Rle in H. rewrite Q2R_plus, baselQ_correct in H by lia.
  unfold Q2R in H. cbn [Qnum Qden] in H. unfold basel_tail. lra.
Qed.

(** Every partial sum of the series stays below the constant by which
    [calc_rank_or] divides. *)
Lemma basel_bound (n : nat) : basel 0 n <= 1.64493406685.
Proof.
  pose proof basel_150 as H150.
  destruct (Nat.le_gt_cases n 150) as [Hle|Hgt].
  - replace 150%nat with (n + (150 - n))%nat in H150 by lia.
    rewrite basel_app in H150.
    pose proof (basel_nonneg (150 - n) (0 + Z.of_nat n) ltac:(lia)).
    assert (0 < basel_tail 150) by (apply basel_tail_step; lra).
    lra.
  - replace n with (150 + (n - 150))%nat by lia.
    rewrite basel_app.
    pose proof (basel_le_tail (n - 150) (0 + Z.of_nat 150) ltac:(lia)) as Ht.
    change (IZR (0 + Z.of_nat 150)) with 150 in Ht. lra.
Qed.

Lemma or_positions_inv (w : list R) (post : list WordEntryPos) (j : Z)
    (s : or_state) :
  weights_in_range w -> (0 <= j)%Z -> or_inv s ->
  or_inv (or_positions w post j s).
Proof.
  intros Hw. revert j s. induction post as [|p post IH]; intros j s Hj Hs;
    cbn [or_positions]; [exact Hs|].
  pose proof (Hw (Z.to_nat (WEP_GETWEIGHT p))) as Hp. fold (wpos w p) in Hp.
  pose proof (IZR_sq_pos j Hj) as Hq.
  assert (Ht : 0 <= wpos w p / IZR ((j + 1) * (j + 1))).
  { apply Rmult_le_pos; [lra|]. apply Rlt_le, Rinv_0_lt_compat, Hq. }
  destruct Hs as [Hr Hs].
  destruct (Rgt_dec (wpos w p) (wjm s)) as [Hgt|Hle]; apply IH; try lia.
  - split; cbn [resj wjm jm]; [lra|]. right. repeat split; [lra|lia|lra].
  - split; cbn [resj wjm jm]; [lra|]. right.
    destruct Hs as [(E & _ & _)|(H1 & H2 & H3)]; [lra|].
    repeat split; [lra|lia|lra].
Qed.

Lemma or_entry_nonneg (w : list R) (e : WordEntry) :
  weights_in_range w -> 0 <= or_entry w e.
Proof.
  intros Hw. unfold or_entry.
  destruct (or_positions_inv w (entry_positions e) 0 (mkOr 0 (-1) 0) Hw
              ltac:(lia)) as [Hr Hs].
  { split; cbn [resj wjm jm]; [lra|]. left. repeat split. }
  set (s := or_positions w (entry_positions e) 0 (mkOr 0 (-1) 0)) in *.
  apply Rmult_le_pos; [|apply Rlt_le, Rinv_0_lt_compat; lra].
  destruct Hs as [(E1 & E2 & E3)|(H1 & H2 & H3)].
  - rewrite E1, E2, E3. change (IZR ((0 + 1) * (0 + 1))) with 1. lra.
  - lra.
Qed.

Lemma or_positions_no_update (w : list R) (post : list WordEntryPos) (j : Z)
    (s : or_state) :
  weights_in_range w -> (0 <= j)%Z ->
  Forall (fun p => wpos w p <= wjm s) post ->
  exists r,
    or_positions w post j s = mkOr r (wjm s) (jm s) /\
    r <= resj s + basel j (length post).
Proof.
  intros Hw. revert j s. induction post as [|p post IH]; intros j s Hj Hf;
    cbn [or_positions length basel].
  - exists (resj s). split; [destruct s; reflexivity|lra].
  - inversion Hf as [|? ? Hp Hf']; subst.
    destruct (Rgt_dec (wpos w p) (wjm s)) as [Hgt|_]; [lra|].
    destruct (IH (j + 1)%Z
                (mkOr (resj s + wpos w p / IZR ((j + 1) * (j + 1)))
                      (wjm s) (jm s)) ltac:(lia) Hf') as (r & E & Hr).
    exists r. split; [exact E|]. cbn [resj] in Hr.
    pose proof (Hw (Z.to_nat (WEP_GETWEIGHT p))) as Hwp.
    fold (wpos w p) in Hwp.
    pose proof (IZR_sq_pos j Hj) as Hq.
    assert (wpos w p / IZR ((j + 1) * (j + 1))
            <= 1 / IZR ((j + 1) * (j + 1))).
    { apply Rmult_le_compat_r; [|lra].
      apply Rlt_le, Rinv_0_lt_compat, Hq. }
    lra.
Qed.

Lemma or_entry_le_1 (w : list R) (e : WordEntry) :
  weights_in_range w -> first_is_max w e -> or_entry w e <= 1.
Proof.
  intros Hw Hm. unfold or_entry, first_is_max in *.
  destruct (entry_positions e) as [|p0 rest].
  - cbn [or_positions resj wjm jm].
    change (IZR ((0 + 1) * (0 + 1))) with 1.
    apply (Rmult_le_reg_r 1.64493406685); [lra|].
    unfold Rdiv. rewrite Rmult_assoc, Rinv_l by lra. lra.
  - pose proof (Hw (Z.to_nat (WEP_GETWEIGHT p0))) as Hp.
    fold (wpos w p0) in Hp.
    cbn [or_positions resj wjm jm].
    destruct (Rgt_dec (wpos w p0) (-1)) as [_|Hn]; [|lra].
    destruct (or_positions_no_update w rest (0 + 1)
                (mkOr (0 + wpos w p0 / IZR ((0 + 1) * (0 + 1)))
                      (wpos w p0) 0) Hw ltac:(lia) Hm) as (r & E & Hr).
    rewrite E. cbn [resj wjm jm] in *.
    pose proof (basel_bound (S (length rest))) as Hb.
    cbn [basel] in Hb.
    change (IZR ((0 + 1) * (0 + 1))) with 1 in *.
    apply (Rmult_le_reg_r 1.64493406685); [lra|].
    unfold Rdiv in *. rewrite Rmult_assoc, Rinv_l by lra. lra.
Qed.

Lemma In_entry_run (t : TSVector) (first nitem : nat) (e : WordEntry) :
  In e (entry_run t first nitem) -> In e t.
Proof.
  unfold entry_run. intros H.
  assert (H1 : In e (skipn first t)).
  { rewrite <- (firstn_skipn nitem (skipn first t)).
    apply in_or_app. left. exact H. }
  rewrite <- (firstn_skipn first t). apply in_or_app. right. exact H1.
Qed.

Lemma bs_loop_nitem (fuel : nat) (t : TSVector) (item : QueryOperand)
    (s : bs_state) :
  bs_nitem (bs_loop fuel t item s) = bs_nitem s \/
  bs_nitem (bs_loop fuel t item s) = 1%nat.
Proof.
  revert s. induction fuel as [|fuel IH]; intros s; cbn [bs_loop];
    [left; reflexivity|].
  destruct (stop_low s <? stop_high s)%nat; [|left; reflexivity].
  destruct (WordECompareQueryItem t _ item false =? 0)%Z;
    [right; reflexivity|].
  destruct (WordECompareQueryItem t _ item false >? 0)%Z;
    match goal with |- context [bs_loop fuel t item ?s'] =>
      destruct (IH s') as [E|E]; rewrite E; auto end.
Qed.

(** Without the prefix flag the lookup returns one entry at most. *)
Lemma find_wordentry_exact_count (t : TSVector) (item : QueryOperand)
    (first nitem : nat) :
  prefix item = false ->
  find_wordentry t item = Some (first, nitem) -> nitem = 1%nat.
Proof.
  intros Hp. unfold find_wordentry. rewrite Hp.
  destruct (bs_loop_nitem (length t) t item
              (mkBs 0 (length t) (length t) 0)) as [E|E]; rewrite E;
    cbn [bs_nitem]; simpl; congruence.
Qed.

Lemma In_insert_operand (x y : QueryOperand) (l : list QueryOperand) :
  In x (insert_operand y l) -> x = y \/ In x l.
Proof.
  induction l as [|z l IH]; simpl.
  - intros [<-|[]]. auto.
  - destruct (compare_query_operand y z <=? 0)%Z; simpl.
    + intros [<-|H]; auto.
    + intros [<-|H]; auto. destruct (IH H); auto.
Qed.

Lemma In_sort_operands (x : QueryOperand) (l : list QueryOperand) :
  In x (sort_operands l) -> In x l.
Proof.
  induction l as [|y l IH]; simpl; [auto|].
  intros H. apply In_insert_operand in H as [->|H]; auto.
Qed.

Lemma In_uniq_from (x prev : QueryOperand) (l : list QueryOperand) :
  In x (uniq_from prev l) -> In x l.
Proof.
  revert prev. induction l as [|y l IH]; intros prev; simpl; [auto|].
  destruct (negb _); simpl; [intros [<-|H]|intros H]; eauto.
Qed.

Lemma In_sort_and_uniq_items (x : QueryOperand) (q : TSQuery) :
  In x (sort_and_uniq_items q) -> In x (collect_operands q).
Proof.
  unfold sort_and_uniq_items.
  destruct (length (collect_operands q) <? 2)%nat; [auto|].
  intros H. apply In_sort_operands.
  destruct (sort_operands (collect_operands q)) as [|y l]; [exact H|].
  destruct H as [<-|H]; [left; reflexivity|].
  right. eapply In_uniq_from, H.
Qed.

Lemma or_operand_ge (w : list R) (t : TSVector) (res : R)
    (item : QueryOperand) :
  weights_in_range w -> res <= or_operand w t res item.
Proof.
  intros Hw. unfold or_operand.
  destruct (find_wordentry t item) as [[first nitem]|]; [|lra].
  generalize (entry_run t first nitem). intros l. revert res.
  induction l as [|e l IH]; intros res; simpl; [lra|].
  pose proof (or_entry_nonneg w e Hw). specialize (IH (res + or_entry w e)).
  lra.
Qed.

Lemma or_operand_le (w : list R) (t : TSVector) (res : R)
    (item : QueryOperand) :
  weights_in_range w -> prefix item = false ->
  (forall e, In e t -> first_is_max w e) ->
  or_operand w t res item <= res + 1.
Proof.
  intros Hw Hp Hm. unfold or_operand.
  destruct (find_wordentry t item) as [[first nitem]|] eqn:E; [|lra].
  pose proof (find_wordentry_exact_count t item first nitem Hp E) as ->.
  pose proof (In_entry_run t first 1) as Hin.
  unfold entry_run in *. destruct (skipn first t) as [|e l]; simpl; [lra|].
  pose proof (or_entry_le_1 w e Hw (Hm e (Hin e (or_introl eq_refl)))).
  lra.
Qed.

Lemma or_fold_bounds (w : list R) (t : TSVector) (item : list QueryOperand)
    (res : R) :
  weights_in_range w ->
  res <= fold_left (or_operand w t) item res /\
  ((forall o, In o item -> prefix o = false) ->
   (forall e, In e t -> first_is_max w e) ->
   fold_left (or_operand w t) item res <= res + INR (length item)).
Proof.
  intros Hw. revert res. induction item as [|o item IH]; intros res.
  - simpl. split; [lra|]. intros _ _. lra.
  - cbn [fold_left]. destruct (IH (or_operand w t res o)) as [Hge Hle].
    pose proof (or_operand_ge w t res o Hw). split; [lra|].
    intros Hp Hm.
    pose proof (or_operand_le w t res o Hw (Hp o (or_introl eq_refl)) Hm).
    specialize (Hle (fun o' H' => Hp o' (or_intror H')) Hm).
    cbn [length]. rewrite S_INR. lra.
Qed.

Lemma calc_rank_or_bounds_gen (w : list R) (t : TSVector) (q : TSQuery) :
  weights_in_range w ->
  0 <= calc_rank_or w t q /\
  ((forall o, In o (collect_operands q) -> prefix o = false) ->
   (forall e, In e t -> first_is_max w e) ->
   calc_rank_or w t q <= 1).
Proof.
  intros Hw. unfold calc_rank_or.
  destruct (or_fold_bounds w t (sort_and_uniq_items q) 0 Hw) as [Hge Hle].
  set (res := fold_left (or_operand w t) (sort_and_uniq_items q) 0) in *.
  destruct (Nat.ltb_spec 0 (length (sort_and_uniq_items q))) as [Hs|Hs].
  - assert (Hn : 0 < INR (length (sort_and_uniq_items q))).
    { apply lt_0_INR, Hs. }
    split.
    + apply Rmult_le_pos; [lra|]. apply Rlt_le, Rinv_0_lt_compat, Hn.
    + intros Hp Hm.
      assert (Hr : res <= 0 + INR (length (sort_and_uniq_items q))).
      { apply Hle; [|exact Hm].
        intros o Ho. apply Hp, In_sort_and_uniq_items, Ho. }
      apply (Rmult_le_reg_r (INR (length (sort_and_uniq_items q))));
        [exact Hn|].
      unfold Rdiv. rewrite Rmult_assoc, Rinv_l by lra. lra.
  - split; [lra|]. intros Hp Hm.
    assert (Hr : res <= 0 + INR (length (sort_and_uniq_items q))).
    { apply Hle; [|exact Hm].
      intros o Ho. apply Hp, In_sort_and_uniq_items, Ho. }
    assert (E : length (sort_and_uniq_items q) = 0%nat) by lia.
    rewrite E in Hr. simpl in Hr. lra.
Qed.

Lemma or_entry_single (w : list R) (lex : list byte) (p : WordEntryPos) :
  0 <= wpos w p ->
  or_entry w (mkWordEntry lex true [p]) = wpos w p / 1.64493406685.
Proof.
  intros Hp. unfold or_entry, entry_positions. cbn [haspos posdata].
  rewrite or_positions_single by lra. cbn [resj wjm jm].
  change (IZR ((0 + 1) * (0 + 1))) with 1. field. lra.
Qed.

(** Scenario S2: one term at three positions of class 3. *)
Example calc_rank_or_S2 :
  calc_rank_or weights
    [mkWordEntry cat true [mkpos 1 3; mkpos 2 3; mkpos 3 3]] query_S1
  = (1 + 1 / 4 + 1 / 9) / 1.64493406685.
Proof.
  assert (E : calc_rank_or weights
                [mkWordEntry cat true [mkpos 1 3; mkpos 2 3; mkpos 3 3]]
                query_S1
              = (0 + or_entry weights
                       (mkWordEntry cat true [mkpos 1 3; mkpos 2 3; mkpos 3 3]))
                / 1) by reflexivity.
  rewrite E. unfold or_entry, entry_positions. cbn [haspos posdata].
  assert (W1 : wpos weights (mkpos 1 3) = 1.0) by reflexivity.
  assert (W2 : wpos weights (mkpos 2 3) = 1.0) by reflexivity.
  assert (W3 : wpos weights (mkpos 3 3) = 1.0) by reflexivity.
  cbn [or_positions resj wjm jm]. rewrite W1, W2, W3.
  destruct (Rgt_dec 1.0 (-1)) as [_|H]; [|exfalso; lra].
  cbn [resj wjm jm].
  destruct (Rgt_dec 1.0 1.0) as [H|_]; [exfalso; lra|].
  cbn [resj wjm jm].
  destruct (Rgt_dec 1.0 1.0) as [H|_]; [exfalso; lra|].
  cbn [resj wjm jm].
  change (IZR ((0 + 1) * (0 + 1))) with 1.
  change (IZR ((0 + 1 + 1) * (0 + 1 + 1))) with 4.
  change (IZR ((0 + 1 + 1 + 1) * (0 + 1 + 1 + 1))) with 9.
  lra.
Qed.

(** C3, as stated, fails: for the prefix query [cat:*] the vector
    [cat:1A catch:5A] scores 2 / 1.64493406685, above 1. *)
Lemma calc_rank_or_above_1 :
  calc_rank_or weights doc_prefix query_prefix = 2 / 1.64493406685 /\
  ~ (0 <= calc_rank_or weights doc_prefix query_prefix <= 1).
Proof.
  assert (E : calc_rank_or weights doc_prefix query_prefix
              = (0 + or_entry weights (mkWordEntry cat true [mkpos 1 3])
                 + or_entry weights (mkWordEntry catch true [mkpos 5 3]))
                / 1).
  { reflexivity. }
  assert (W1 : wpos weights (mkpos 1 3) = 1.0) by reflexivity.
  assert (W5 : wpos weights (mkpos 5 3) = 1.0) by reflexivity.
  rewrite E, !or_entry_single by (rewrite ?W1, ?W5; lra).
  rewrite W1, W5.
  assert (V : (0 + 1.0 / 1.64493406685 + 1.0 / 1.64493406685) / 1
              = 2 / 1.64493406685) by lra.
  rewrite V. split; [reflexivity|]. lra.
Qed.

(** C3, amended: with the default weights and without normalisation the
    result of the OR ranker is never negative, for every vector and
    every query; it is at most 1 when no operand of the query is a
    prefix operand and the first position of every entry of the vector
    carries the greatest weight of the entry. *)
Theorem calc_rank_or_bounds (t : TSVector) (q : TSQuery) :
  0 <= calc_rank_or weights t q /\
  ((forall o, In o (collect_operands q) -> prefix o = false) ->
   (forall e, In e t -> first_is_max weights e) ->
   0 <= calc_rank_or weights t q <= 1).
Proof.
  destruct (calc_rank_or_bounds_gen weights t q weights_default_in_range)
    as [Hge Hle].
  split; [exact Hge|]. intros Hp Hm. split; [exact Hge|apply Hle; assumption].
Qed.

Lemma calc_rank_or_bounds_witness :
  0 <= calc_rank_or weights doc_S1 query_S1 <= 1.
Proof.
  apply (calc_rank_or_bounds doc_S1 query_S1).
  - intros o [<-|[]]. reflexivity.
  - intros e [<-|[]]. constructor.
Defined.

(** ** Lexeme lookup *)

Lemma tsCompareString_nil_l (b : list byte) (pfx : bool) :
  tsCompareString [] b pfx
  = if pfx then 0%Z else match b with [] => 0%Z | _ => (-1)%Z end.
Proof. destruct pfx, b; reflexivity. Qed.

Lemma tsCompareString_nil_r (x : byte) (a : list byte) (pfx : bool) :
  tsCompareString (x :: a) [] pfx = 1%Z.
Proof. reflexivity. Qed.

Lemma memcmp_0 (a b : list byte) : memcmp a b 0 = 0%Z.
Proof. reflexivity. Qed.

Lemma tsCompareString_cons (x y : byte) (a b : list byte) (pfx : bool) :
  tsCompareString (x :: a) (y :: b) pfx
  = match N.compare (Byte.to_N x) (Byte.to_N y) with
    | Eq => tsCompareString a b pfx
    | Lt => (-1)%Z
    | Gt => 1%Z
    end.
Proof.
  unfold tsCompareString at 1.
  cbn [length Nat.eqb Nat.min memcmp].
  destruct (N.compare (Byte.to_N x) (Byte.to_N y)).
  - unfold tsCompareString.
    destruct a as [|x' a], b as [|y' b]; cbn [length Nat.eqb Nat.min].
    + rewrite memcmp_0. destruct pfx; reflexivity.
    + rewrite memcmp_0. destruct pfx; reflexivity.
    + rewrite memcmp_0. destruct pfx; reflexivity.
    + change (S (length b) <? S (S (length a)))%nat
        with (length b <? S (length a))%nat.
      change (S (S (length a)) <? S (S (length b)))%nat
        with (S (length a) <? S (length b))%nat.
      reflexivity.
  - destruct pfx; reflexivity.
  - destruct pfx; reflexivity.
Qed.

Lemma tsCompareString_lexcmp (a b : list byte) :
  tsCompareString a b false = sign_of (lexcmp a b).
Proof.
  revert b. induction a as [|x a IH]; intros b.
  - rewrite tsCompareString_nil_l. destruct b; reflexivity.
  - destruct b as [|y b]; [reflexivity|].
    rewrite tsCompareString_cons. cbn [lexcmp].
    destruct (N.compare (Byte.to_N x) (Byte.to_N y)); [apply IH| |];
      reflexivity.
Qed.

Lemma to_N_inj (x y : byte) : Byte.to_N x = Byte.to_N y -> x = y.
Proof.
  intros H. pose proof (Byte.of_to_N x) as Hx.
  rewrite H, Byte.of_to_N in Hx. congruence.
Qed.

Lemma byte_eqb_compare (x y : byte) :
  Byte.eqb x y = match N.compare (Byte.to_N x) (Byte.to_N y) with
                 | Eq => true
                 | _ => false
                 end.
Proof.
  destruct (N.compare_spec (Byte.to_N x) (Byte.to_N y)) as [E|L|L].
  - apply to_N_inj in E. subst. apply Byte.byte_dec_lb. reflexivity.
  - destruct (Byte.eqb x y) eqn:E; [|reflexivity].
    apply Byte.byte_dec_bl in E. subst. lia.
  - destruct (Byte.eqb x y) eqn:E; [|reflexivity].
    apply Byte.byte_dec_bl in E. subst. lia.
Qed.

Lemma tsCompareString_prefix (a b : list byte) :
  (tsCompareString a b true =? 0)%Z = begins_with a b.
Proof.
  revert b. induction a as [|x a IH]; intros b.
  - rewrite tsCompareString_nil_l. reflexivity.
  - destruct b as [|y b]; [reflexivity|].
    rewrite tsCompareString_cons. cbn [begins_with].
    rewrite byte_eqb_compare.
    destruct (N.compare (Byte.to_N x) (Byte.to_N y)); [apply IH| |];
      reflexivity.
Qed.

Lemma lexcmp_eq (a b : list byte) : lexcmp a b = Eq <-> a = b.
Proof.
  revert b. induction a as [|x a IH]; intros [|y b]; cbn [lexcmp];
    try (split; [discriminate|congruence]); [tauto|].
  destruct (N.compare_spec (Byte.to_N x) (Byte.to_N y)) as [E|L|L].
  - apply to_N_inj in E. subst. rewrite IH. split; congruence.
  - split; [discriminate|]. intros E; inversion E; subst. lia.
  - split; [discriminate|]. intros E; inversion E; subst. lia.
Qed.

Lemma lexcmp_antisym (a b : list byte) : lexcmp b a = CompOpp (lexcmp a b).
Proof.
  revert b. induction a as [|x a IH]; intros [|y b]; cbn [lexcmp];
    try reflexivity.
  rewrite (N.compare_antisym (Byte.to_N x) (Byte.to_N y)).
  destruct (N.compare (Byte.to_N x) (Byte.to_N y)); cbn [CompOpp];
    [apply IH| |]; reflexivity.
Qed.

Lemma lexcmp_trans (a b c : list byte) :
  lexcmp a b = Lt -> lexcmp b c = Lt -> lexcmp a c = Lt.
Proof.
  revert b c. induction a as [|x a IH]; intros [|y b] [|z c];
    cbn [lexcmp]; try congruence.
  destruct (N.compare_spec (Byte.to_N x) (Byte.to_N y)) as [E1|L1|L1];
    destruct (N.compare_spec (Byte.to_N y) (Byte.to_N z)) as [E2|L2|L2];
    try discriminate; intros H1 H2.
  - rewrite E1, E2, N.compare_refl. eapply IH; eauto.
  - rewrite E1. apply N.compare_lt_iff in L2. rewrite L2. reflexivity.
  - rewrite <- E2. apply N.compare_lt_iff in L1. rewrite L1. reflexivity.
  - assert (L : (Byte.to_N x < Byte.to_N z)%N) by lia.
    apply N.compare_lt_iff in L. rewrite L. reflexivity.
Qed.

(** A string is not above the strings it begins. *)
Lemma begins_with_le (s l : list byte) :
  begins_with s l = true -> lexcmp s l <> Gt.
Proof.
  revert l. induction s as [|x s IH]; intros [|y l]; cbn [begins_with lexcmp];
    try discriminate.
  rewrite byte_eqb_compare.
  destruct (N.compare (Byte.to_N x) (Byte.to_N y)); cbn [andb];
    try discriminate. apply IH.
Qed.

(** The strings that begin with [s] form an interval of the order. *)
Lemma begins_with_convex (s l l' : list byte) :
  lexcmp s l <> Gt -> lexcmp l l' = Lt -> begins_with s l' = true ->
  begins_with s l = true.
Proof.
  revert l l'. induction s as [|x s IH]; intros l l'; [reflexivity|].
  destruct l as [|y l]; cbn [lexcmp]; [congruence|].
  destruct l' as [|z l']; [discriminate|].
  cbn [begins_with]. rewrite !byte_eqb_compare.
  destruct (N.compare_spec (Byte.to_N x) (Byte.to_N z)) as [E1|L1|L1];
    cbn [andb]; try discriminate.
  destruct (N.compare_spec (Byte.to_N x) (Byte.to_N y)) as [E2|L2|L2];
    destruct (N.compare_spec (Byte.to_N y) (Byte.to_N z)) as [E3|L3|L3];
    try congruence; try lia; try discriminate.
  intros H1 H2 H3. cbn [andb]. eapply IH; eauto.
Qed.

Lemma sorted_vector_nth (t : TSVector) :
  sorted_vector t ->
  forall i j, (i < j < length t)%nat ->
  lexcmp (lexeme (nth i t dummy_entry)) (lexeme (nth j t dummy_entry)) = Lt.
Proof.
  induction 1 as [|a l Hs IH Hf]; intros i j Hij; [simpl in Hij; lia|].
  destruct j as [|j]; [lia|]. simpl in Hij.
  destruct i as [|i]; cbn [nth].
  - rewrite Forall_forall in Hf. apply Hf, nth_In. lia.
  - apply IH. lia.
Qed.

Section Lookup.

Variable t : TSVector.
Variable item : QueryOperand.
Hypothesis Hsorted : sorted_vector t.

Lemma compare_item_sign (k : nat) :
  WordECompareQueryItem t k item false = sign_of (lexcmp (operand_str item) (lexeme_at t k)).
Proof. apply tsCompareString_lexcmp. Qed.

Lemma lex_below (k m : nat) :
  (k < m < length t)%nat -> lexcmp (operand_str item) (lexeme_at t m) <> Lt ->
  lexcmp (operand_str item) (lexeme_at t k) = Gt.
Proof.
  intros Hk Hm.
  pose proof (sorted_vector_nth t Hsorted k m Hk) as Hlt.
  fold (lexeme_at t k) (lexeme_at t m) in Hlt.
  rewrite lexcmp_antisym.
  destruct (lexcmp (operand_str item) (lexeme_at t m)) eqn:E; [| congruence |].
  - apply lexcmp_eq in E. rewrite E, Hlt. reflexivity.
  - rewrite lexcmp_antisym in E.
    destruct (lexcmp (lexeme_at t m) (operand_str item)) eqn:E'; try discriminate.
    rewrite (lexcmp_trans _ _ _ Hlt E'). reflexivity.
Qed.

Lemma lex_above (k m : nat) :
  (m < k < length t)%nat -> lexcmp (operand_str item) (lexeme_at t m) <> Gt ->
  lexcmp (operand_str item) (lexeme_at t k) = Lt.
Proof.
  intros Hk Hm.
  pose proof (sorted_vector_nth t Hsorted m k Hk) as Hlt.
  fold (lexeme_at t k) (lexeme_at t m) in Hlt.
  destruct (lexcmp (operand_str item) (lexeme_at t m)) eqn:E; [| | congruence].
  - apply lexcmp_eq in E. rewrite E. exact Hlt.
  - exact (lexcmp_trans _ _ _ E Hlt).
Qed.

Lemma bs_loop_spec (fuel : nat) (s : bs_state) :
  (stop_high s - stop_low s <= fuel)%nat -> bs_inv t item s ->
  bs_post t item (bs_nitem s) (bs_loop fuel t item s).
Proof.
  revert s. induction fuel as [|fuel IH]; intros s Hf (Hb & Hlo & Hhi).
  - cbn [bs_loop]. repeat split; [lia| |].
    + intros k Hk. apply Hlo. lia.
    + right. repeat split; [lia|exact Hhi].
  - cbn [bs_loop].
    destruct (Nat.ltb_spec (stop_low s) (stop_high s)) as [Hlt|Hge].
    2:{ repeat split; [lia| |].
        - intros k Hk. apply Hlo. lia.
        - right. repeat split; [lia|exact Hhi]. }
    set (mid := (stop_low s + (stop_high s - stop_low s) / 2)%nat).
    assert (Hmid : (stop_low s <= mid < stop_high s)%nat).
    { unfold mid.
      pose proof (Nat.div_lt (stop_high s - stop_low s) 2
                    ltac:(lia) ltac:(lia)). lia. }
    rewrite compare_item_sign.
    destruct (lexcmp (operand_str item) (lexeme_at t mid)) eqn:E; cbn [sign_of Z.eqb Z.gtb Z.compare].
    + repeat split; cbn [stop_high stop_low stop_middle bs_nitem]; [lia| |].
      * intros k Hk. apply (lex_below k mid); [lia|congruence].
      * left. repeat split; [lia|symmetry; apply lexcmp_eq, E|].
        intros k Hk. apply (lex_above k mid); [lia|congruence].
    + assert (P : bs_post t item (bs_nitem s)
                    (bs_loop fuel t item
                       (mkBs (stop_low s) mid mid (bs_nitem s)))).
      { apply (IH (mkBs (stop_low s) mid mid (bs_nitem s)));
          cbn [stop_high stop_low]; [lia|].
        repeat split; cbn [stop_high stop_low]; [lia|lia|exact Hlo|].
        intros k Hk. destruct (Nat.eq_dec k mid) as [->|Hne]; [exact E|].
        apply (lex_above k mid); [lia|congruence]. }
      exact P.
    + assert (P : bs_post t item (bs_nitem s)
                    (bs_loop fuel t item
                       (mkBs (mid + 1) (stop_high s) mid (bs_nitem s)))).
      { apply (IH (mkBs (mid + 1) (stop_high s) mid (bs_nitem s)));
          cbn [stop_high stop_low]; [lia|].
        repeat split; cbn [stop_high stop_low]; [lia|lia| |exact Hhi].
        intros k Hk. destruct (Nat.eq_dec k mid) as [->|Hne]; [exact E|].
        apply (lex_below k mid); [lia|congruence]. }
      exact P.
Qed.

(** The search started by [find_wordentry]. *)
Lemma bs_loop_find :
  bs_post t item 0 (bs_loop (length t) t item (mkBs 0 (length t) (length t) 0)).
Proof.
  apply (bs_loop_spec (length t) (mkBs 0 (length t) (length t) 0));
    cbn [stop_high stop_low]; [lia|].
  repeat split; cbn [stop_high stop_low]; try lia; intros k Hk; lia.
Qed.

End Lookup.

Lemma In_firstn_nth {A : Type} (d : A) (f : nat) (l : list A) (e : A) :
  In e (firstn f l) -> exists k, (k < f)%nat /\ (k < length l)%nat /\ nth k l d = e.
Proof.
  revert l. induction f as [|f IH]; intros [|a l]; simpl; try tauto.
  intros [<-|H].
  - exists 0%nat. repeat split; lia.
  - destruct (IH l H) as (k & H1 & H2 & H3). exists (S k).
    repeat split; [lia|lia|exact H3].
Qed.

Lemma In_skipn_nth {A : Type} (d : A) (f : nat) (l : list A) (e : A) :
  In e (skipn f l) ->
  exists k, (f <= k < length l)%nat /\ nth k l d = e.
Proof.
  revert l. induction f as [|f IH]; intros l H.
  - simpl in H. destruct (In_nth l e d H) as (k & Hk & E).
    exists k. split; [lia|exact E].
  - destruct l as [|a l]; [simpl in H; tauto|]. simpl in H.
    destruct (IH l H) as (k & Hk & E). exists (S k). simpl.
    split; [lia|exact E].
Qed.

Lemma StronglySorted_skipn {A : Type} (R : A -> A -> Prop) (f : nat)
    (l : list A) :
  StronglySorted R l -> StronglySorted R (skipn f l).
Proof.
  revert l. induction f as [|f IH]; intros l H; [exact H|].
  destruct l as [|a l]; [exact H|]. simpl.
  apply IH. apply StronglySorted_inv in H. tauto.
Qed.

Lemma filter_none {A : Type} (P : A -> bool) (l : list A) :
  (forall e, In e l -> P e = false) -> filter P l = [].
Proof.
  induction l as [|a l IH]; intros H; simpl; [reflexivity|].
  rewrite (H a (or_introl eq_refl)). apply IH.
  intros e He. apply H. right. exact He.
Qed.

(** On a sorted list of entries not below the operand, the forward scan
    counts exactly the entries that begin with the operand. *)
Lemma prefix_run_filter (item : QueryOperand) (l : list WordEntry) :
  sorted_vector l ->
  (forall e, In e l -> lexcmp (operand_str item) (lexeme e) <> Gt) ->
  filter (fun e => begins_with (operand_str item) (lexeme e)) l
  = firstn (prefix_run item l) l /\
  (prefix_run item l <= length l)%nat.
Proof.
  induction 1 as [|a l Hs IH Hf]; intros Hge; [split; reflexivity|].
  cbn [filter prefix_run]. rewrite tsCompareString_prefix.
  destruct (begins_with (operand_str item) (lexeme a)) eqn:E.
  - destruct IH as [IH1 IH2].
    { intros e He. apply Hge. right. exact He. }
    cbn [firstn length]. rewrite IH1. split; [reflexivity|lia].
  - cbn [firstn length]. split; [|lia].
    apply filter_none. intros e He.
    destruct (begins_with (operand_str item) (lexeme e)) eqn:E';
      [|reflexivity].
    rewrite Forall_forall in Hf.
    rewrite (begins_with_convex (operand_str item) (lexeme a) (lexeme e))
      in E; [discriminate| |exact (Hf e He)|exact E'].
    apply Hge. left. reflexivity.
Qed.

(** C6: on a sorted vector without duplicates, for a plain operand
    [find_wordentry] returns the one entry whose lexeme is the operand,
    with count 1, and nothing when there is none; for a prefix operand
    it returns the contiguous run [first, first + nitem) made of exactly
    the entries whose lexeme begins with the operand, those a linear
    scan of the vector finds. *)
Theorem find_wordentry_correct (t : TSVector) (item : QueryOperand) :
  sorted_vector t ->
  (prefix item = false ->
   match find_wordentry t item with
   | Some (first, nitem) =>
       nitem = 1%nat /\ (first < length t)%nat /\
       lexeme (nth first t dummy_entry) = operand_str item /\
       (forall k, (k < length t)%nat ->
                  lexeme (nth k t dummy_entry) = operand_str item ->
                  k = first)
   | None => forall e, In e t -> lexeme e <> operand_str item
   end) /\
  (prefix item = true ->
   found_run t (find_wordentry t item) = linear_scan t item /\
   match find_wordentry t item with
   | Some (first, nitem) =>
       (0 < nitem)%nat /\ (first + nitem <= length t)%nat
   | None => True
   end).
Proof.
  intros Hs.
  pose proof (bs_loop_find t item Hs) as (Hn & Hlow & Hcase).
  unfold lexeme_at in Hlow, Hcase.
  unfold find_wordentry.
  set (s := bs_loop (length t) t item (mkBs 0 (length t) (length t) 0)) in *.
  assert (Hne : forall k, (k < length t)%nat ->
                  lexcmp (operand_str item) (lexeme (nth k t dummy_entry)) <> Eq ->
                  lexeme (nth k t dummy_entry) <> operand_str item).
  { intros k _ H E. apply H, lexcmp_eq. symmetry. exact E. }
  split; intros Hp; rewrite Hp.
  - destruct Hcase as [(E1 & E2 & Hlt & Heq & Hup)|(E0 & Hle & Hup)].
    + rewrite E1. cbn [Nat.ltb Nat.leb]. repeat split; [exact Hlt|exact Heq|].
      intros k Hk E.
      destruct (Nat.lt_trichotomy k (stop_high s)) as [H|[H|H]];
        [|exact H|]; exfalso; apply (Hne k Hk); try exact E.
      * rewrite (Hlow k H). discriminate.
      * rewrite (Hup k (conj H Hk)). discriminate.
    + rewrite E0. cbn [Nat.ltb Nat.leb]. intros e He.
      destruct (In_nth t e dummy_entry He) as (k & Hk & <-).
      apply (Hne k Hk).
      destruct (Nat.lt_ge_cases k (stop_high s)) as [H|H].
      * rewrite (Hlow k H). discriminate.
      * rewrite (Hup k (conj H Hk)). discriminate.
  - assert (Hmid : (if (stop_high s <=? stop_low s)%nat then stop_high s
                    else stop_middle s) = stop_high s).
    { destruct (stop_high s <=? stop_low s)%nat eqn:E; [reflexivity|].
      apply Nat.leb_gt in E.
      destruct Hcase as [(_ & E2 & _)|(_ & Hle & _)]; [exact E2|lia]. }
    rewrite Hmid.
    assert (Hge : forall e, In e (skipn (stop_high s) t) ->
                    lexcmp (operand_str item) (lexeme e) <> Gt).
    { intros e He.
      destruct (In_skipn_nth dummy_entry _ _ _ He) as (k & Hk & <-).
      destruct Hcase as [(_ & _ & _ & Heq & Hup)|(_ & _ & Hup)].
      - destruct (Nat.eq_dec k (stop_high s)) as [->|Hne'].
        + rewrite Heq. rewrite (proj2 (lexcmp_eq _ _) eq_refl). discriminate.
        + rewrite (Hup k ltac:(lia)). discriminate.
      - rewrite (Hup k Hk). discriminate. }
    destruct (prefix_run_filter item (skipn (stop_high s) t)
                (StronglySorted_skipn _ _ _ Hs) Hge) as [Hfil Hlen].
    rewrite length_skipn in Hlen.
    assert (Hscan : linear_scan t item
                    = firstn (prefix_run item (skipn (stop_high s) t))
                             (skipn (stop_high s) t)).
    { unfold linear_scan.
      rewrite <- (firstn_skipn (stop_high s) t) at 1.
      rewrite filter_app, Hfil, filter_none; [reflexivity|].
      intros e He.
      destruct (In_firstn_nth dummy_entry _ _ _ He) as (k & Hk & Hkt & <-).
      destruct (begins_with _ _) eqn:E; [|reflexivity].
      apply begins_with_le in E. rewrite (Hlow k Hk) in E. congruence. }
    rewrite Hscan.
    destruct (Nat.ltb_spec 0 (prefix_run item (skipn (stop_high s) t)))
      as [Hpos|Hz].
    + split; [reflexivity|]. split; [exact Hpos|lia].
    + split; [|exact I].
      replace (prefix_run item (skipn (stop_high s) t)) with 0%nat by lia.
      reflexivity.
Qed.

Lemma doc_S6_sorted : sorted_vector doc_S6.
Proof.
  unfold sorted_vector, doc_S6.
  repeat (constructor; try reflexivity).
Qed.

(** Scenario S6: the prefix run of [cat:*] holds [cat] and [catch]. *)
Example find_wordentry_S6 :
  find_wordentry doc_S6 (mkOperand cat true) = Some (0%nat, 2%nat) /\
  find_wordentry doc_S6 (mkOperand cat false) = Some (0%nat, 1%nat) /\
  find_wordentry doc_S6 (mkOperand dog true) = Some (2%nat, 1%nat) /\
  find_wordentry doc_S6 (mkOperand ["c"; "b"]%byte true) = None.
Proof. repeat split; reflexivity. Qed.

Lemma find_wordentry_correct_witness :
  found_run doc_S6 (find_wordentry doc_S6 (mkOperand cat true))
  = linear_scan doc_S6 (mkOperand cat true).
Proof.
  apply (find_wordentry_correct doc_S6 (mkOperand cat true));
    [exact doc_S6_sorted|reflexivity].
Defined.

(* ================================================================= *)
(** * Further properties *)

(** ** Operand preparation *)

Lemma compare_query_operand_sign (a b : QueryOperand) :
  compare_query_operand a b
  = sign_of (lexcmp (operand_str a) (operand_str b)).
Proof. apply tsCompareString_lexcmp. Qed.

Lemma compare_query_operand_le (a b : QueryOperand) :
  (compare_query_operand a b <=? 0)%Z = true <-> operand_le a b.
Proof.
  rewrite compare_query_operand_sign. unfold operand_le.
  destruct (lexcmp (operand_str a) (operand_str b)); cbn; split;
    congruence.
Qed.

Lemma compare_query_operand_eq (a b : QueryOperand) :
  (compare_query_operand a b =? 0)%Z = true <-> operand_str a = operand_str b.
Proof.
  rewrite compare_query_operand_sign, <- lexcmp_eq.
  destruct (lexcmp (operand_str a) (operand_str b)); cbn; split;
    congruence.
Qed.

Lemma operand_le_trans (a b c : QueryOperand) :
  operand_le a b -> operand_le b c -> operand_le a c.
Proof.
  unfold operand_le. intros H1 H2.
  destruct (lexcmp (operand_str a) (operand_str b)) eqn:E1; [| |congruence].
  - apply lexcmp_eq in E1. rewrite E1. exact H2.
  - destruct (lexcmp (operand_str b) (operand_str c)) eqn:E2;
      [| |congruence].
    + apply lexcmp_eq in E2. rewrite <- E2, E1. discriminate.
    + rewrite (lexcmp_trans _ _ _ E1 E2). discriminate.
Qed.

Lemma operand_le_total (a b : QueryOperand) :
  ~ operand_le a b -> operand_le b a.
Proof.
  unfold operand_le. intros H. rewrite lexcmp_antisym.
  destruct (lexcmp (operand_str a) (operand_str b)); cbn;
    try discriminate.
  exfalso. apply H. discriminate.
Qed.

Lemma insert_operand_sorted (x : QueryOperand) (l : list QueryOperand) :
  StronglySorted operand_le l ->
  StronglySorted operand_le (insert_operand x l).
Proof.
  induction 1 as [|y l Hs IH Hf]; cbn [insert_operand].
  - repeat constructor.
  - destruct (compare_query_operand x y <=? 0)%Z eqn:E.
    + apply compare_query_operand_le in E.
      constructor; [constructor; assumption|].
      constructor; [exact E|].
      eapply Forall_impl; [|exact Hf]. intros z Hz.
      eapply operand_le_trans; eauto.
    + assert (Hyx : operand_le y x).
      { apply operand_le_total. intros H.
        apply compare_query_operand_le in H. congruence. }
      constructor; [exact IH|].
      rewrite Forall_forall in *. intros z Hz.
      apply In_insert_operand in Hz as [->|Hz]; auto.
Qed.

Lemma sort_operands_sorted (l : list QueryOperand) :
  StronglySorted operand_le (sort_operands l).
Proof.
  induction l as [|x l IH]; cbn; [constructor|].
  apply insert_operand_sorted, IH.
Qed.

Lemma insert_operand_In (x y : QueryOperand) (l : list QueryOperand) :
  x = y \/ In x l -> In x (insert_operand y l).
Proof.
  induction l as [|z l IH]; cbn [insert_operand].
  - intros [->|[]]. left. reflexivity.
  - destruct (compare_query_operand y z <=? 0)%Z.
    + intros [->|H]; [left; reflexivity|right; exact H].
    + intros [->|[->|H]].
      * right. apply IH. left. reflexivity.
      * left. reflexivity.
      * right. apply IH. right. exact H.
Qed.

Lemma sort_operands_In (x : QueryOperand) (l : list QueryOperand) :
  In x l -> In x (sort_operands l).
Proof.
  induction l as [|y l IH]; cbn; [auto|].
  intros [->|H]; apply insert_operand_In; auto.
Qed.

Lemma uniq_from_sorted (l : list QueryOperand) :
  StronglySorted operand_le l ->
  forall prev, Forall (operand_le prev) l ->
  StronglySorted operand_lt (uniq_from prev l) /\
  Forall (operand_lt prev) (uniq_from prev l).
Proof.
  induction 1 as [|x l Hs IH Hf]; intros prev Hp; cbn [uniq_from].
  - split; constructor.
  - inversion Hp as [|? ? Hpx Hpl]; subst.
    destruct (compare_query_operand x prev =? 0)%Z eqn:E; cbn [negb].
    + apply IH, Hpl.
    + assert (Hlt : operand_lt prev x).
      { unfold operand_lt, operand_le in *.
        destruct (lexcmp (operand_str prev) (operand_str x)) eqn:E';
          [|reflexivity|congruence].
        apply lexcmp_eq in E'. symmetry in E'.
        apply compare_query_operand_eq in E'. congruence. }
      destruct (IH x Hf) as [IH1 IH2].
      split; constructor; try assumption.
      eapply Forall_impl; [|exact IH2]. intros z Hz.
      exact (lexcmp_trans _ _ _ Hlt Hz).
Qed.

Lemma uniq_from_covers (prev : QueryOperand) (l : list QueryOperand)
    (o : QueryOperand) :
  In o l ->
  exists o', (o' = prev \/ In o' (uniq_from prev l)) /\
             operand_str o' = operand_str o.
Proof.
  revert prev. induction l as [|x l IH]; intros prev; [intros []|].
  cbn [uniq_from].
  destruct (compare_query_operand x prev =? 0)%Z eqn:E; cbn [negb].
  - intros [->|H].
    + exists prev. split; [left; reflexivity|].
      symmetry. apply compare_query_operand_eq, E.
    + apply IH, H.
  - intros [->|H].
    + exists o. split; [right; left; reflexivity|reflexivity].
    + destruct (IH x H) as (o' & [->|Ho'] & Hs).
      * exists x. split; [right; left; reflexivity|exact Hs].
      * exists o'. split; [right; right; exact Ho'|exact Hs].
Qed.

Lemma collect_operands_In (q : TSQuery) (o : QueryOperand) :
  In o (collect_operands q) <-> In (QI_VAL o) q.
Proof.
  induction q as [|[o'|op l] q IH]; cbn [collect_operands In].
  - tauto.
  - rewrite IH. split; intros [H|H]; auto; left; congruence.
  - rewrite IH. split; [auto|]. intros [H|H]; [discriminate|exact H].
Qed.

Lemma sort_and_uniq_items_strict (q : TSQuery) :
  StronglySorted operand_lt (sort_and_uniq_items q).
Proof.
  unfold sort_and_uniq_items.
  destruct (Nat.ltb_spec (length (collect_operands q)) 2) as [Hlt|_].
  - destruct (collect_operands q) as [|x [|y l]]; cbn in Hlt;
      [constructor|repeat constructor|lia].
  - pose proof (sort_operands_sorted (collect_operands q)) as Hs.
    destruct (sort_operands (collect_operands q)) as [|x l]; [constructor|].
    apply StronglySorted_inv in Hs as [Hs Hf].
    destruct (uniq_from_sorted l Hs x Hf) as [H1 H2].
    constructor; assumption.
Qed.

(** X1: the operands [sort_and_uniq_items] returns are in strictly
    ascending bytewise order of their strings: no two of them carry the
    same string, whatever their prefix flags. *)
Theorem sort_and_uniq_items_sorted (q : TSQuery) :
  StronglySorted operand_lt (sort_and_uniq_items q).
Proof. exact (sort_and_uniq_items_strict q). Qed.

(** X2: [sort_and_uniq_items] returns operands of the query only, and
    the string of every operand of the query is the string of one of
    the operands returned; operator items are left out. *)
Theorem sort_and_uniq_items_operands (q : TSQuery) :
  (forall o, In o (sort_and_uniq_items q) -> In (QI_VAL o) q) /\
  (forall o, In (QI_VAL o) q ->
     exists o', In o' (sort_and_uniq_items q) /\
                operand_str o' = operand_str o).
Proof.
  split.
  - intros o H. apply collect_operands_In, In_sort_and_uniq_items, H.
  - intros o H. apply collect_operands_In in H.
    unfold sort_and_uniq_items.
    destruct (length (collect_operands q) <? 2)%nat; [eauto|].
    apply sort_operands_In in H.
    destruct (sort_operands (collect_operands q)) as [|x l]; [destruct H|].
    destruct H as [->|H]; [exists o; split; [left|]; reflexivity|].
    destruct (uniq_from_covers x l o H) as (o' & [->|Ho'] & Hs).
    + exists x. split; [left; reflexivity|exact Hs].
    + exists o'. split; [right; exact Ho'|exact Hs].
Qed.

(** ** The weight array *)

Lemma get_weights_loop_values (arrdata : nat -> R) (n i : nat) (ws : list R) :
  get_weights_loop arrdata i n = Ok ws ->
  forall k, (k < n)%nat ->
    nth k ws 0 = if Rge_dec (arrdata (i + k)%nat) 0 then arrdata (i + k)%nat
                 else nth (i + k) weights 0.
Proof.
  revert i ws. induction n as [|n IH]; intros i ws H k Hk; [lia|].
  cbn [get_weights_loop] in H.
  destruct (Rgt_dec _ 1.0) as [Hgt|Hle]; [discriminate|].
  destruct (get_weights_loop arrdata (S i) n) as [ws'|e] eqn:E;
    [|discriminate].
  inversion H; subst ws; clear H.
  destruct k as [|k]; cbn [nth].
  - rewrite Nat.add_0_r. reflexivity.
  - rewrite (IH _ _ E k) by lia.
    replace (S i + k)%nat with (i + S k)%nat by lia. reflexivity.
Qed.

(** X3: a table [get_weights] returns for an array has four weights,
    each in [0, 1]; a weight is the element of the array when that is
    not negative and the default weight of its class otherwise.  The
    array is then one-dimensional, has four elements at least and no
    null. *)
Theorem get_weights_result (a : ArrayType) (w : list R) :
  get_weights (Some a) = Ok w ->
  ARR_NDIM a = 1%Z /\ (4 <= length (arr_elems a))%nat /\
  array_contains_nulls a = false /\
  length w = 4%nat /\
  forall k, (k < 4)%nat ->
    0 <= nth k w 0 <= 1 /\
    nth k w 0 = if Rge_dec (arr_data a k) 0 then arr_data a k
                else nth k weights 0.
Proof.
  unfold get_weights.
  destruct (Z.eqb_spec (ARR_NDIM a) 1) as [Hd|Hd]; cbn [negb];
    [|discriminate].
  change (length weights) with 4%nat.
  destruct (Nat.ltb_spec (length (arr_elems a)) 4) as [Hl|Hl];
    [discriminate|].
  destruct (array_contains_nulls a); [discriminate|].
  intros H.
  destruct (get_weights_loop_nth _ _ _ _ H) as [Hlen Hr].
  repeat split; try assumption; try (apply Hr; assumption).
  apply (get_weights_loop_values _ _ _ _ H k). assumption.
Qed.

Lemma get_weights_result_witness :
  length weights = 4%nat.
Proof.
  apply (get_weights_result (array_of_weights weights) weights).
  unfold get_weights, array_of_weights, weights.
  cbn [ARR_NDIM arr_elems map length Z.eqb Pos.eqb negb Nat.ltb Nat.leb
       array_contains_nulls existsb orb get_weights_loop arr_data nth].
  repeat match goal with
         | |- context [Rge_dec ?a ?b] =>
             destruct (Rge_dec a b); [|exfalso; lra]
         | |- context [Rgt_dec ?a ?b] =>
             destruct (Rgt_dec a b); [exfalso; lra|]
         end.
  reflexivity.
Defined.

Lemma array_of_weights_nulls (w : list R) :
  array_contains_nulls (array_of_weights w) = false.
Proof.
  unfold array_contains_nulls, array_of_weights. cbn [arr_elems].
  induction w as [|x w IH]; [reflexivity|exact IH].
Qed.

Lemma array_of_weights_data (w : list R) (k : nat) :
  arr_data (array_of_weights w) k = nth k w 0.
Proof.
  unfold arr_data, array_of_weights. cbn [arr_elems].
  revert k. induction w as [|x w IH]; intros [|k]; cbn [map nth];
    try reflexivity. apply IH.
Qed.

Lemma get_weights_loop_accepts (arrdata : nat -> R) (n i : nat) :
  (forall k, (i <= k < i + n)%nat -> 0 <= arrdata k <= 1) ->
  get_weights_loop arrdata i n = Ok (map arrdata (seq i n)).
Proof.
  revert i. induction n as [|n IH]; intros i H; cbn [get_weights_loop seq map].
  - reflexivity.
  - pose proof (H i ltac:(lia)) as Hi.
    destruct (Rge_dec (arrdata i) 0) as [_|Hn]; [|exfalso; lra].
    destruct (Rgt_dec (arrdata i) 1.0) as [Hgt|_]; [exfalso; lra|].
    rewrite IH; [reflexivity|]. intros k Hk. apply H. lia.
Qed.

Lemma list4_nth (w : list R) :
  length w = 4%nat -> map (fun k => nth k w 0) (seq 0 4) = w.
Proof.
  destruct w as [|a [|b [|c [|d [|e w]]]]]; cbn; intros H;
    try discriminate. reflexivity.
Qed.

Lemma get_weights_length (win : option ArrayType) (w : list R) :
  get_weights win = Ok w -> length w = 4%nat.
Proof.
  destruct win as [a|]; unfold get_weights; intros H.
  - destruct (negb (ARR_NDIM a =? 1)%Z); [discriminate|].
    destruct (length (arr_elems a) <? length weights)%nat; [discriminate|].
    destruct (array_contains_nulls a); [discriminate|].
    apply (get_weights_loop_nth _ _ _ _ H).
  - inversion H. reflexivity.
Qed.

(** X4: a table [get_weights] returns is accepted as it is when it is
    handed in again as an array: no weight is replaced and none is out
    of range. *)
Theorem get_weights_resupply (win : option ArrayType) (w : list R) :
  get_weights win = Ok w ->
  get_weights (Some (array_of_weights w)) = Ok w.
Proof.
  intros H.
  pose proof (get_weights_length _ _ H) as Hlen.
  pose proof (get_weights_in_range _ _ H) as Hr.
  unfold get_weights.
  rewrite array_of_weights_nulls.
  cbn [array_of_weights ARR_NDIM arr_elems Z.eqb Pos.eqb negb].
  rewrite length_map, Hlen. change (length weights) with 4%nat.
  cbn [Nat.ltb Nat.leb].
  rewrite get_weights_loop_accepts.
  - rewrite <- (list4_nth w Hlen) at 2.
    apply f_equal, map_ext. intros k.
    apply (array_of_weights_data w k).
  - intros k _. rewrite (array_of_weights_data w k). apply Hr.
Qed.

Lemma get_weights_resupply_witness :
  get_weights (Some (array_of_weights weights)) = Ok weights.
Proof.
  apply (get_weights_resupply None weights). reflexivity.
Defined.

(** X5: the table [get_weights] returns passes the loop of
    [calc_rank_cd] over the four classes untouched: no weight is
    negative, so no default is put in a second time, no weight is above
    1, so the range test of the loop does not fire, and the inverse
    weights are the inverses of the four weights of the table.  The
    error "weight out of range" of a cover-density ranking is thus the
    one [get_weights] raises. *)
Theorem calc_rank_cd_accepts_weights
    (TS_execute : TSQuery -> operandexist -> bool -> bool)
    (win : option ArrayType) (w : list R)
    (txt : TSVector) (query : TSQuery) (method : Z) :
  get_weights win = Ok w ->
  invws_loop w 0 (length weights) = Ok (map (fun v => 1 / v) w) /\
  calc_rank_cd TS_execute w txt query method <> Error WeightOutOfRange.
Proof.
  intros Hw.
  pose proof (get_weights_length _ _ Hw) as Hlen.
  pose proof (get_weights_in_range _ _ Hw) as Hr.
  assert (Hl : forall n i, (i + n = 4)%nat ->
            invws_loop w i n = Ok (map (fun v => 1 / v) (skipn i w))).
  { induction n as [|n IH]; intros i Hi; cbn [invws_loop].
    - rewrite skipn_all2 by lia. reflexivity.
    - destruct (Hr i) as [H0 H1].
      destruct (Rge_dec (nth i w 0) 0) as [_|Hn]; [|lra].
      destruct (Rgt_dec (nth i w 0) 1.0) as [Hgt|_]; [lra|].
      rewrite (IH (S i)) by lia.
      assert (Hs : skipn i w = nth i w 0 :: skipn (S i) w).
      { clear -Hlen Hi. revert i Hi.
        destruct w as [|a [|b [|c [|d [|? ?]]]]]; try discriminate.
        intros [|[|[|[|i]]]] Hi; try reflexivity; lia. }
      rewrite Hs. cbn [map]. replace 1.0 with 1 by lra. reflexivity. }
  assert (E : invws_loop w 0 (length weights)
              = Ok (map (fun v => 1 / v) w)).
  { change (length weights) with 4%nat. rewrite (Hl 4%nat 0%nat eq_refl).
    reflexivity. }
  split; [exact E|].
  unfold calc_rank_cd. rewrite E.
  destruct (fst (get_docrep txt query _)); discriminate.
Qed.

Lemma calc_rank_cd_accepts_weights_witness :
  invws_loop weights 0 (length weights)
  = Ok (map (fun v => 1 / v) weights).
Proof.
  apply (calc_rank_cd_accepts_weights TS_execute_operand None weights
           [] [] 0%Z).
  reflexivity.
Defined.

(** X17: an array whose first four elements are all negative stands for
    the default weights: with it the entry points that take weights
    return what the entry points without weights return. *)
Theorem negative_weights_are_defaults
    (hook : result unit)
    (TS_execute : TSQuery -> operandexist -> bool -> bool)
    (a : ArrayType) (txt : TSVector) (query : TSQuery) (method : Z) :
  ARR_NDIM a = 1%Z -> (4 <= length (arr_elems a))%nat ->
  array_contains_nulls a = false ->
  (forall k, (k < 4)%nat -> arr_data a k < 0) ->
  get_weights (Some a) = Ok weights /\
  ts_rank_wttf hook a txt query method = ts_rank_ttf hook txt query method /\
  ts_rankcd_wttf hook TS_execute a txt query method
  = ts_rankcd_ttf hook TS_execute txt query method.
Proof.
  intros Hd Hl Hn Hneg.
  assert (Hw : get_weights (Some a) = Ok weights).
  { unfold get_weights. rewrite Hd, Hn. cbn [Z.eqb Pos.eqb negb].
    change (length weights) with 4%nat.
    destruct (Nat.ltb_spec (length (arr_elems a)) 4) as [H|_]; [lia|].
    pose proof (Hneg 0%nat ltac:(lia)) as H0.
    pose proof (Hneg 1%nat ltac:(lia)) as H1.
    pose proof (Hneg 2%nat ltac:(lia)) as H2.
    pose proof (Hneg 3%nat ltac:(lia)) as H3.
    cbn [get_weights_loop]. unfold weights. cbn [nth].
    repeat match goal with
           | |- context [Rge_dec ?x 0] =>
               destruct (Rge_dec x 0); [exfalso; lra|]
           | |- context [Rgt_dec ?x ?y] =>
               destruct (Rgt_dec x y); [exfalso; lra|]
           end.
    reflexivity. }
  split; [exact Hw|].
  unfold ts_rank_wttf, ts_rank_ttf, ts_rankcd_wttf, ts_rankcd_ttf.
  rewrite Hw. split; reflexivity.
Qed.

Lemma negative_weights_are_defaults_witness :
  get_weights (Some (mkArray 1 [Some (-1); Some (-1); Some (-1); Some (-1)]))
  = Ok weights.
Proof.
  apply (negative_weights_are_defaults (Ok tt) TS_execute_operand
           (mkArray 1 [Some (-1); Some (-1); Some (-1); Some (-1)])
           [] [] 0%Z);
    [reflexivity|cbn; lia|reflexivity|].
  intros k Hk. unfold arr_data. cbn [arr_elems].
  do 4 (destruct k as [|k]; [cbn; lra|]). lia.
Defined.

(** ** The normalisations of the standard ranker *)

Lemma clamp_negative_nonneg (r : R) : 0 <= clamp_negative r.
Proof. unfold clamp_negative. destruct (Rlt_dec r 0); lra. Qed.

Lemma div_ge_1_bounds (r d : R) : 0 <= r -> 1 <= d -> 0 <= r / d <= r.
Proof.
  intros Hr Hd.
  assert (Hi : 0 < / d <= 1).
  { split; [apply Rinv_0_lt_compat; lra|].
    rewrite <- Rinv_1. apply Rinv_le_contravar; lra. }
  unfold Rdiv. split; [apply Rmult_le_pos; lra|].
  rewrite <- (Rmult_1_r r) at 2. apply Rmult_le_compat_l; lra.
Qed.

Lemma log2_ge_1 (x : R) : 2 <= x -> 1 <= ln x / ln 2.
Proof.
  intros Hx. pose proof ln_2_lt_1 as [H2 _].
  assert (Hl : ln 2 <= ln x).
  { destruct (Req_dec x 2) as [->|Hne]; [lra|].
    apply Rlt_le, ln_increasing; lra. }
  apply (Rmult_le_reg_r (ln 2)); [exact H2|].
  unfold Rdiv. rewrite Rmult_assoc, Rinv_l by lra. lra.
Qed.

Lemma cnt_length_pos (t : TSVector) :
  (0 <? length t)%nat = true -> (1 <= cnt_length t)%Z.
Proof.
  intros H. apply Nat.ltb_lt in H. pose proof (cnt_length_ge t). lia.
Qed.

Lemma norm_loglength_bounds (method : Z) (t : TSVector) (res : R) :
  0 <= res -> 0 <= norm_loglength method t res <= res.
Proof.
  intros Hr. unfold norm_loglength.
  destruct (has_flag method RANK_NORM_LOGLENGTH); cbn [andb]; [|lra].
  destruct (0 <? length t)%nat eqn:E; [|lra].
  apply div_ge_1_bounds; [exact Hr|]. apply log2_ge_1.
  apply cnt_length_pos in E. apply (IZR_le 2). lia.
Qed.

Lemma norm_length_bounds (method : Z) (t : TSVector) (res : R) :
  0 <= res -> 0 <= norm_length method t res <= res.
Proof.
  intros Hr. unfold norm_length.
  destruct (has_flag method RANK_NORM_LENGTH); [|lra].
  destruct (Z.gtb_spec (cnt_length t) 0) as [H|H]; [|lra].
  apply div_ge_1_bounds; [exact Hr|]. apply (IZR_le 1). lia.
Qed.

Lemma norm_uniq_bounds (method : Z) (t : TSVector) (res : R) :
  0 <= res -> 0 <= norm_uniq method t res <= res.
Proof.
  intros Hr. unfold norm_uniq.
  destruct (has_flag method RANK_NORM_UNIQ); cbn [andb]; [|lra].
  destruct (Nat.ltb_spec 0 (length t)) as [H|H]; [|lra].
  apply div_ge_1_bounds; [exact Hr|]. apply (le_INR 1). lia.
Qed.

Lemma norm_loguniq_bounds (method : Z) (t : TSVector) (res : R) :
  0 <= res -> 0 <= norm_loguniq method t res <= res.
Proof.
  intros Hr. unfold norm_loguniq.
  destruct (has_flag method RANK_NORM_LOGUNIQ); cbn [andb]; [|lra].
  destruct (Nat.ltb_spec 0 (length t)) as [H|H]; [|lra].
  apply div_ge_1_bounds; [exact Hr|]. apply log2_ge_1.
  apply (le_INR 2). lia.
Qed.

Lemma norm_rdivrplus1_bounds (method : Z) (res : R) :
  0 <= res ->
  0 <= norm_rdivrplus1 method res <= res /\
  (has_flag method RANK_NORM_RDIVRPLUS1 = true ->
   norm_rdivrplus1 method res < 1).
Proof.
  intros Hr. unfold norm_rdivrplus1.
  destruct (has_flag method RANK_NORM_RDIVRPLUS1).
  - split; [apply div_ge_1_bounds; lra|]. intros _.
    apply (Rmult_lt_reg_r (res + 1)); [lra|].
    unfold Rdiv. rewrite Rmult_assoc, Rinv_l by lra. lra.
  - split; [lra|discriminate].
Qed.

Lemma calc_rank_norm_bounds (method : Z) (t : TSVector) (res : R) :
  0 <= res ->
  0 <= calc_rank_norm method t res <= res /\
  (has_flag method RANK_NORM_RDIVRPLUS1 = true ->
   calc_rank_norm method t res < 1).
Proof.
  intros Hr. unfold calc_rank_norm.
  pose proof (norm_loglength_bounds method t res Hr) as H1.
  pose proof (norm_length_bounds method t _ (proj1 H1)) as H2.
  pose proof (norm_uniq_bounds method t _ (proj1 H2)) as H3.
  pose proof (norm_loguniq_bounds method t _ (proj1 H3)) as H4.
  destruct (norm_rdivrplus1_bounds method _ (proj1 H4)) as [H5 H6].
  split; [lra|exact H6].
Qed.

Lemma calc_rank_norm_none (t : TSVector) (res : R) :
  calc_rank_norm RANK_NO_NORM t res = res.
Proof. reflexivity. Qed.

(** X6: the standard rank is never negative, and no normalisation
    method raises it: for every weight table, vector, query and method
    it lies between 0 and the rank without normalisation. *)
Theorem calc_rank_bounds (w : list R) (t : TSVector) (q : TSQuery)
    (method : Z) :
  0 <= calc_rank w t q method <= calc_rank w t q RANK_NO_NORM.
Proof.
  unfold calc_rank.
  destruct ((length t =? 0)%nat || (length q =? 0)%nat); [lra|].
  rewrite calc_rank_norm_none.
  apply calc_rank_norm_bounds, clamp_negative_nonneg.
Qed.

(** X7: with the bit 0x20 of the method set the standard rank is less
    than 1. *)
Theorem calc_rank_selfnorm_lt_1 (w : list R) (t : TSVector) (q : TSQuery)
    (method : Z) :
  Z.land method 32 <> 0%Z ->
  0 <= calc_rank w t q method < 1.
Proof.
  intros Hm.
  assert (Hf : has_flag method RANK_NORM_RDIVRPLUS1 = true).
  { unfold has_flag, RANK_NORM_RDIVRPLUS1.
    destruct (Z.eqb_spec (Z.land method 32) 0); [congruence|reflexivity]. }
  unfold calc_rank.
  destruct ((length t =? 0)%nat || (length q =? 0)%nat); [lra|].
  destruct (calc_rank_norm_bounds method t _
              (clamp_negative_nonneg
                 (if root_is_and q then calc_rank_and w t q
                  else calc_rank_or w t q))) as [H1 H2].
  split; [lra|apply H2, Hf].
Qed.

Lemma calc_rank_selfnorm_lt_1_witness :
  0 <= calc_rank weights doc_prefix query_prefix 32 < 1.
Proof.
  apply (calc_rank_selfnorm_lt_1 weights doc_prefix query_prefix 32).
  discriminate.
Defined.

Lemma has_flag_mask (m mask flag : Z) :
  Z.land mask flag = flag ->
  has_flag (Z.land m mask) flag = has_flag m flag.
Proof.
  intros H. unfold has_flag. rewrite <- Z.land_assoc, H. reflexivity.
Qed.

Lemma has_flag_agree (m m' mask flag : Z) :
  Z.land m mask = Z.land m' mask -> Z.land mask flag = flag ->
  has_flag m flag = has_flag m' flag.
Proof.
  intros Hm Hf.
  rewrite <- (has_flag_mask m mask flag Hf), Hm.
  apply has_flag_mask, Hf.
Qed.

(** X8: the standard ranker reads the bits 0x01, 0x02, 0x08, 0x10 and
    0x20 of the method only: two methods that agree on them give the
    same rank, so the extent-distance bit 0x04 has no effect on it.  The
    cover-density ranker reads the bits 0x01 to 0x20. *)
Theorem calc_rank_method_bits
    (TS_execute : TSQuery -> operandexist -> bool -> bool)
    (w : list R) (t : TSVector) (q : TSQuery) (m m' : Z) :
  (Z.land m 59 = Z.land m' 59 -> calc_rank w t q m = calc_rank w t q m') /\
  calc_rank w t q (Z.lor m 4) = calc_rank w t q m /\
  (Z.land m 63 = Z.land m' 63 ->
   calc_rank_cd TS_execute w t q m = calc_rank_cd TS_execute w t q m').
Proof.
  assert (H59 : forall a b, Z.land a 59 = Z.land b 59 ->
            calc_rank w t q a = calc_rank w t q b).
  { intros a b H. unfold calc_rank, calc_rank_norm, norm_rdivrplus1,
      norm_loguniq, norm_uniq, norm_length, norm_loglength.
    rewrite (has_flag_agree a b 59 RANK_NORM_LOGLENGTH H eq_refl),
      (has_flag_agree a b 59 RANK_NORM_LENGTH H eq_refl),
      (has_flag_agree a b 59 RANK_NORM_UNIQ H eq_refl),
      (has_flag_agree a b 59 RANK_NORM_LOGUNIQ H eq_refl),
      (has_flag_agree a b 59 RANK_NORM_RDIVRPLUS1 H eq_refl).
    reflexivity. }
  split; [apply H59|]. split.
  - apply H59. rewrite Z.land_lor_distr_l.
    change (Z.land 4 59) with 0%Z. apply Z.lor_0_r.
  - intros H. unfold calc_rank_cd, calc_rank_cd_norm, norm_rdivrplus1,
      norm_loguniq, norm_uniq, cd_norm_extdist, norm_length,
      cd_norm_loglength.
    rewrite (has_flag_agree m m' 63 RANK_NORM_LOGLENGTH H eq_refl),
      (has_flag_agree m m' 63 RANK_NORM_LENGTH H eq_refl),
      (has_flag_agree m m' 63 RANK_NORM_EXTDIST H eq_refl),
      (has_flag_agree m m' 63 RANK_NORM_UNIQ H eq_refl),
      (has_flag_agree m m' 63 RANK_NORM_LOGUNIQ H eq_refl),
      (has_flag_agree m m' 63 RANK_NORM_RDIVRPLUS1 H eq_refl).
    reflexivity.
Qed.

(** ** The weight of a word collocation *)

Lemma exp_INR_le (n : nat) : exp (INR n) <= 3 ^ n.
Proof.
  induction n as [|n IH].
  - simpl. rewrite exp_0. lra.
  - rewrite S_INR, exp_plus. cbn [pow].
    pose proof exp_le_3 as H3. pose proof (exp_pos (INR n)) as Hp.
    pose proof (exp_pos 1) as H1.
    rewrite Rmult_comm. apply Rmult_le_compat; lra.
Qed.

Lemma exp_le_monotone (x y : R) : x <= y -> exp x <= exp y.
Proof.
  intros [H| ->]; [apply Rlt_le, exp_increasing, H|lra].
Qed.

Lemma word_distance_near_floor (d : Z) :
  (d <= 100)%Z -> 1e-30 <= 1 / (1.005 + 0.05 * exp (IZR d / 1.5 - 2)).
Proof.
  intros Hd.
  assert (Hx : IZR d / 1.5 - 2 <= INR 65).
  { apply IZR_le in Hd. rewrite INR_IZR_INZ.
    change (IZR (Z.of_nat 65)) with 65. lra. }
  pose proof (exp_le_monotone _ _ Hx) as He.
  pose proof (exp_INR_le 65) as H65.
  pose proof (exp_pos (IZR d / 1.5 - 2)) as Hp.
  assert (E3 : 3 ^ 65 = 10301051460877537453973547267843).
  { rewrite (pow_IZR 3 65). apply f_equal. vm_compute. reflexivity. }
  set (x := exp (IZR d / 1.5 - 2)) in *.
  assert (Hden : 0 < 1.005 + 0.05 * x <= 1e30) by lra.
  apply (Rmult_le_reg_r (1.005 + 0.05 * x)); [lra|].
  unfold Rdiv at 2. rewrite Rmult_assoc, Rinv_l by lra. lra.
Qed.

(** X9: the weight of a collocation lies in (0, 1] and never grows with
    the distance: it falls from about 1 for adjacent words to the floor
    [1e-30] that every distance above 100 gets. *)
Theorem word_distance_antitone (d d' : Z) :
  (d <= d')%Z ->
  0 < word_distance d' <= word_distance d /\ word_distance d <= 1.
Proof.
  intros Hd.
  pose proof (word_distance_range d) as [_ H1].
  pose proof (word_distance_range d') as [H0 _].
  split; [split; [exact H0|]|exact H1].
  unfold word_distance.
  destruct (Z.gtb_spec d 100) as [Hg|Hg];
    destruct (Z.gtb_spec d' 100) as [Hg'|Hg']; try lia; try lra.
  - apply word_distance_near_floor. lia.
  - pose proof (exp_pos (IZR d / 1.5 - 2)) as Hp.
    pose proof (exp_pos (IZR d' / 1.5 - 2)) as Hp'.
    assert (He : exp (IZR d / 1.5 - 2) <= exp (IZR d' / 1.5 - 2)).
    { apply exp_le_monotone. apply IZR_le in Hd. lra. }
    unfold Rdiv at 1 3. rewrite !Rmult_1_l.
    apply Rinv_le_contravar; lra.
Qed.

Lemma word_distance_antitone_witness :
  0 < word_distance 101 <= word_distance 1 /\ word_distance 1 <= 1.
Proof. apply (word_distance_antitone 1 101). lia. Defined.

(** ** The lookup on an arbitrary vector *)

Lemma bs_loop_sound (t : TSVector) (item : QueryOperand) (fuel : nat)
    (s : bs_state) :
  (stop_high s - stop_low s <= fuel)%nat ->
  (stop_low s <= stop_high s <= length t)%nat ->
  let s' := bs_loop fuel t item s in
  (stop_high s' <= length t)%nat /\
  ((bs_nitem s' = 1%nat /\ stop_middle s' = stop_high s' /\
    (stop_high s' < length t)%nat /\
    lexeme (nth (stop_high s') t dummy_entry) = operand_str item)
   \/ (bs_nitem s' = bs_nitem s /\ (stop_high s' <= stop_low s')%nat)).
Proof.
  revert s. induction fuel as [|fuel IH]; intros s Hf Hb; cbn [bs_loop].
  - cbv zeta. split; [lia|]. right. split; [reflexivity|lia].
  - destruct (Nat.ltb_spec (stop_low s) (stop_high s)) as [Hlt|Hge].
    2:{ cbv zeta. split; [lia|]. right. split; [reflexivity|lia]. }
    set (mid := (stop_low s + (stop_high s - stop_low s) / 2)%nat).
    assert (Hmid : (stop_low s <= mid < stop_high s)%nat).
    { unfold mid.
      pose proof (Nat.div_lt (stop_high s - stop_low s) 2
                    ltac:(lia) ltac:(lia)). lia. }
    destruct (Z.eqb_spec (WordECompareQueryItem t mid item false) 0)
      as [E|E].
    + cbv zeta. cbn [stop_high stop_low stop_middle bs_nitem].
      split; [lia|]. left. repeat split; [lia|].
      unfold WordECompareQueryItem in E.
      rewrite tsCompareString_lexcmp in E.
      destruct (lexcmp (operand_str item) (lexeme (nth mid t dummy_entry)))
        eqn:El; try discriminate.
      symmetry. apply lexcmp_eq, El.
    + destruct (WordECompareQueryItem t mid item false >? 0)%Z.
      * apply (IH (mkBs (mid + 1) (stop_high s) mid (bs_nitem s)));
          cbn [stop_high stop_low]; lia.
      * apply (IH (mkBs (stop_low s) mid mid (bs_nitem s)));
          cbn [stop_high stop_low]; lia.
Qed.

Lemma prefix_run_sound (item : QueryOperand) (l : list WordEntry) :
  (prefix_run item l <= length l)%nat /\
  Forall (fun e => begins_with (operand_str item) (lexeme e) = true)
         (firstn (prefix_run item l) l).
Proof.
  induction l as [|e l [IH1 IH2]]; cbn [prefix_run firstn length].
  - split; [lia|constructor].
  - rewrite tsCompareString_prefix.
    destruct (begins_with (operand_str item) (lexeme e)) eqn:E;
      cbn [firstn].
    + split; [lia|]. constructor; assumption.
    + split; [lia|constructor].
Qed.

Lemma firstn_1_skipn {A : Type} (d : A) (k : nat) (l : list A) :
  (k < length l)%nat -> firstn 1 (skipn k l) = [nth k l d].
Proof.
  revert l. induction k as [|k IH]; intros [|a l] H; cbn in *; try lia.
  - reflexivity.
  - apply IH. lia.
Qed.

(** X10: whatever the vector, sorted or not, a run [find_wordentry]
    returns is not empty, lies within the vector, and holds matching
    entries only: the one entry whose lexeme is the operand for a plain
    operand, entries whose lexemes begin with the operand for a prefix
    operand. *)
Theorem find_wordentry_sound (t : TSVector) (item : QueryOperand)
    (first nitem : nat) :
  find_wordentry t item = Some (first, nitem) ->
  (0 < nitem)%nat /\ (first + nitem <= length t)%nat /\
  length (entry_run t first nitem) = nitem /\
  (prefix item = false -> nitem = 1%nat) /\
  Forall (fun e => if prefix item
                   then begins_with (operand_str item) (lexeme e) = true
                   else lexeme e = operand_str item)
         (entry_run t first nitem).
Proof.
  pose proof (bs_loop_sound t item (length t)
                (mkBs 0 (length t) (length t) 0)) as Hs.
  cbn [stop_high stop_low bs_nitem] in Hs.
  specialize (Hs ltac:(lia) ltac:(lia)). cbv zeta in Hs.
  unfold find_wordentry.
  set (s := bs_loop (length t) t item (mkBs 0 (length t) (length t) 0)) in *.
  destruct Hs as [Hn Hcase].
  assert (Hlen : forall n, (stop_high s + n <= length t)%nat ->
            length (entry_run t (stop_high s) n) = n).
  { intros n Hle. unfold entry_run.
    rewrite length_firstn, length_skipn. lia. }
  destruct (prefix item) eqn:Hp.
  - assert (Hmid : (if (stop_high s <=? stop_low s)%nat then stop_high s
                    else stop_middle s) = stop_high s).
    { destruct (stop_high s <=? stop_low s)%nat eqn:E; [reflexivity|].
      apply Nat.leb_gt in E.
      destruct Hcase as [(_ & E2 & _)|(_ & Hle)]; [exact E2|lia]. }
    rewrite Hmid.
    destruct (prefix_run_sound item (skipn (stop_high s) t)) as [Hr Hf].
    rewrite length_skipn in Hr.
    destruct (Nat.ltb_spec 0 (prefix_run item (skipn (stop_high s) t)))
      as [Hpos|Hz]; [|discriminate].
    intros H. inversion H; subst first nitem; clear H.
    repeat split; [exact Hpos|lia|apply Hlen; lia|discriminate|exact Hf].
  - destruct (Nat.ltb_spec 0 (bs_nitem s)) as [Hpos|Hz]; [|discriminate].
    intros H. inversion H; subst first nitem; clear H.
    destruct Hcase as [(E1 & _ & Hlt & Heq)|(E0 & _)]; [|lia].
    rewrite E1. repeat split; [lia|lia|apply Hlen; lia|].
    unfold entry_run. rewrite (firstn_1_skipn dummy_entry) by exact Hlt.
    constructor; [exact Heq|constructor].
Qed.

Lemma find_wordentry_sound_witness :
  Forall (fun e => begins_with cat (lexeme e) = true)
         (entry_run doc_unsorted 1 2).
Proof.
  apply (find_wordentry_sound doc_unsorted (mkOperand cat true) 1 2).
  reflexivity.
Defined.

(** ** The document representation *)

Lemma compareDocR_le (a b : DocRepresentation) :
  (compareDocR a b <=? 0)%Z = true <-> doc_le a b.
Proof.
  unfold compareDocR, doc_le.
  destruct (Z.eqb_spec (doc_pos a) (doc_pos b)) as [E|E]; cbn.
  - split; [lia|reflexivity].
  - destruct (Z.gtb_spec (doc_pos a) (doc_pos b)); cbn; split;
      try lia; try discriminate; reflexivity.
Qed.

Lemma insert_doc_perm (x : DocRepresentation) (l : list DocRepresentation) :
  Permutation (insert_doc x l) (x :: l).
Proof.
  induction l as [|y l IH]; cbn [insert_doc]; [reflexivity|].
  destruct (compareDocR x y <=? 0)%Z; [reflexivity|].
  rewrite IH. apply perm_swap.
Qed.

Lemma sort_doc_perm (l : list DocRepresentation) :
  Permutation (sort_doc l) l.
Proof.
  induction l as [|x l IH]; cbn; [constructor|].
  rewrite insert_doc_perm. constructor. exact IH.
Qed.

Lemma insert_doc_sorted (x : DocRepresentation) (l : list DocRepresentation) :
  StronglySorted doc_le l -> StronglySorted doc_le (insert_doc x l).
Proof.
  induction 1 as [|y l Hs IH Hf]; cbn [insert_doc].
  - repeat constructor.
  - destruct (compareDocR x y <=? 0)%Z eqn:E.
    + apply compareDocR_le in E.
      constructor; [constructor; assumption|].
      constructor; [exact E|].
      eapply Forall_impl; [|exact Hf]. unfold doc_le in *. intros z Hz. lia.
    + assert (Hyx : doc_le y x).
      { destruct (Z.le_gt_cases (doc_pos x) (doc_pos y)) as [H|H].
        - apply compareDocR_le in H. congruence.
        - unfold doc_le. lia. }
      constructor; [exact IH|].
      rewrite Forall_forall in *. intros z Hz.
      apply (Permutation_in _ (insert_doc_perm x l)) in Hz.
      destruct Hz as [<-|Hz]; auto.
Qed.

Lemma sort_doc_sorted (l : list DocRepresentation) :
  StronglySorted doc_le (sort_doc l).
Proof.
  induction l as [|x l IH]; cbn; [constructor|].
  apply insert_doc_sorted, IH.
Qed.

(** What holds of every occurrence built from a position of an entry of
    the vector holds of every occurrence [get_docrep] collects. *)
Lemma docrep_fold_Forall (P : DocRepresentation -> Prop) (t : TSVector)
    (q : TSQuery) :
  (forall i e p, is_val q i = true -> In e t -> In p (entry_positions e) ->
     P (mkDoc (same_items q i) (WEP_GETWEIGHT p) (WEP_GETPOS p))) ->
  forall l s, Forall P (fst s) ->
    Forall P (fst (fold_left (docrep_item t q) l s)).
Proof.
  intros HP. induction l as [|i l IH]; intros s Hs; cbn [fold_left];
    [exact Hs|].
  apply IH. unfold docrep_item.
  destruct (is_val q i) eqn:Hv; cbn [negb]; [|exact Hs].
  destruct (get_exists (snd s) i); [exact Hs|].
  destruct (find_wordentry t (operand_at q i)) as [[first nitem]|];
    [|exact Hs].
  pose proof (In_entry_run t first nitem) as Hin.
  revert s Hs. induction (entry_run t first nitem) as [|e es IHe];
    intros s Hs; cbn [fold_left]; [exact Hs|].
  apply IHe; [intros e' He'; apply Hin; right; exact He'|].
  unfold docrep_entry.
  pose proof (HP i e) as HPe.
  destruct (entry_positions e) as [|p post]; [exact Hs|].
  cbn [fst]. apply Forall_app. split; [exact Hs|].
  apply Forall_map, Forall_forall. intros p' Hp'.
  apply HPe; [exact Hv|apply Hin; left; reflexivity|exact Hp'].
Qed.

Lemma get_docrep_Forall (P : DocRepresentation -> Prop) (t : TSVector)
    (q : TSQuery) (ex ex' : operandexist) (doc : list DocRepresentation) :
  (forall i e p, is_val q i = true -> In e t -> In p (entry_positions e) ->
     P (mkDoc (same_items q i) (WEP_GETWEIGHT p) (WEP_GETPOS p))) ->
  get_docrep t q ex = (Some doc, ex') ->
  Forall P doc.
Proof.
  intros HP H. unfold get_docrep in H.
  pose proof (docrep_fold_Forall P t q HP (seq 0 (length q)) ([], ex)
                (Forall_nil P)) as Hf.
  destruct (fst (fold_left (docrep_item t q) (seq 0 (length q)) ([], ex)))
    as [|d l]; [discriminate|].
  inversion H; subst doc.
  rewrite Forall_forall in *. intros x Hx.
  apply Hf, (Permutation_in _ (sort_doc_perm (d :: l))), Hx.
Qed.

Lemma WEP_GETPOS_range (p : WordEntryPos) : (0 <= WEP_GETPOS p < MAXENTRYPOS)%Z.
Proof.
  unfold WEP_GETPOS, MAXENTRYPOS.
  change 16383%Z with (Z.ones 14). rewrite Z.land_ones by lia.
  change (Z.shiftl 1 14) with (2 ^ 14)%Z. apply Z.mod_pos_bound. lia.
Qed.

Lemma same_items_wf (q : TSQuery) (i : nat) :
  is_val q i = true ->
  same_items q i <> [] /\ Forall (fun k => is_val q k = true) (same_items q i).
Proof.
  intros Hv. unfold same_items. split.
  - assert (Hi : (i < length q)%nat).
    { unfold is_val in Hv. apply nth_error_Some.
      destruct (nth_error q i); [discriminate|discriminate Hv]. }
    assert (Hin : In i (filter
              (fun k => (k =? i)%nat
                 || (is_val q k
                     && (compare_query_operand (operand_at q k)
                           (operand_at q i) =? 0)%Z))
              (seq 0 (length q)))).
    { apply filter_In. split; [apply in_seq; lia|].
      rewrite Nat.eqb_refl. reflexivity. }
    intros E. rewrite E in Hin. destruct Hin.
  - apply Forall_forall. intros k Hk. apply filter_In in Hk as [_ Hk].
    apply orb_prop in Hk as [Hk|Hk].
    + apply Nat.eqb_eq in Hk. subst k. exact Hv.
    + apply andb_prop in Hk as [Hk _]. exact Hk.
Qed.

(** X11: a document representation [get_docrep] returns is not empty
    and is sorted by position; each of its occurrences has a position
    in [0, MAXENTRYPOS) and a list of query items that is not empty and
    holds operands only, never an operator. *)
Theorem get_docrep_invariants (t : TSVector) (q : TSQuery)
    (ex ex' : operandexist) (doc : list DocRepresentation) :
  get_docrep t q ex = (Some doc, ex') ->
  doc <> [] /\ StronglySorted doc_le doc /\ Forall (docrep_wf q) doc.
Proof.
  intros H. split; [|split].
  - unfold get_docrep in H.
    destruct (fst (fold_left (docrep_item t q) (seq 0 (length q)) ([], ex)))
      as [|d l]; [discriminate|].
    inversion H; subst doc. intros E.
    pose proof (Permutation_length (sort_doc_perm (d :: l))) as Hl.
    apply (f_equal (@length _)) in E.
    change (length (sort_doc (d :: l)) = 0%nat) in E.
    rewrite Hl in E. discriminate.
  - unfold get_docrep in H.
    destruct (fst (fold_left (docrep_item t q) (seq 0 (length q)) ([], ex)))
      as [|d l]; [discriminate|].
    inversion H; subst doc. apply (sort_doc_sorted (d :: l)).
  - apply (get_docrep_Forall (docrep_wf q) t q ex ex' doc); [|exact H].
    intros i e p Hv _ _. unfold docrep_wf. cbn [doc_pos doc_item].
    split; [apply WEP_GETPOS_range|apply same_items_wf, Hv].
Qed.

Lemma get_docrep_invariants_witness :
  [mkDoc [0%nat] 3 1] <> [] /\
  StronglySorted doc_le [mkDoc [0%nat] 3 1] /\
  Forall (docrep_wf query_S1) [mkDoc [0%nat] 3 1].
Proof.
  apply (get_docrep_invariants doc_S1 query_S1
           (repeat false (length query_S1)) [true]).
  reflexivity.
Defined.

(** ** Covers and the cover-density rank *)

Lemma cover_success_extent
    (TS_execute : TSQuery -> operandexist -> bool -> bool) (query : TSQuery)
    (doc : list DocRepresentation) (fuel : nat) :
  (forall d, In d doc -> (doc_pos d < 2147483647)%Z) ->
  forall ext ext',
    cover TS_execute query fuel doc ext = Some (true, ext') ->
    cover_extent doc ext ext'.
Proof.
  intros Hpos. induction fuel as [|fuel IH]; intros ext ext' H;
    [discriminate|].
  cbn [cover] in H.
  destruct (cover_up TS_execute query (skipn (ext_pos ext) doc)
              (ext_pos ext) (clear_exists query)) as [u|] eqn:Eup;
    [|discriminate].
  apply cover_up_range in Eup. rewrite length_skipn in Eup.
  assert (Hu : (u < length doc)%nat) by lia.
  assert (Hqu : (doc_pos (nth u doc dummy_doc) < 2147483647)%Z).
  { apply Hpos, nth_In, Hu. }
  assert (Hrec : forall p q b e,
            cover TS_execute query fuel doc
              (mkExt (S (ext_pos ext)) p q b e) = Some (true, ext') ->
            cover_extent doc ext ext').
  { intros p q b e Hc. apply IH in Hc.
    destruct Hc as (b' & e' & H1 & H2 & H3 & H4).
    cbn [ext_pos] in H3. exists b', e'. repeat split; try tauto; lia. }
  cbn [ext_q ext_p ext_pos ext_begin ext_end] in H.
  destruct (Z.gtb_spec (doc_pos (nth u doc dummy_doc)) 0) as [Hq0|Hq0];
    [|discriminate].
  destruct (cover_down TS_execute query doc (S u - ext_pos ext) u
              (clear_exists query)) as [l|] eqn:Edown.
  - pose proof (cover_down_range _ _ _ _ _ _ _ Edown) as Hle.
    pose proof (cover_down_lower _ _ _ _ _ _ _ Edown) as Hlo.
    assert (Hpl : (doc_pos (nth l doc dummy_doc) <? 2147483647)%Z = true).
    { apply Z.ltb_lt, Hpos, nth_In. lia. }
    revert H. cbn [ext_q ext_p ext_pos ext_begin ext_end]. rewrite Hpl.
    cbn [ext_q ext_p ext_pos ext_begin ext_end].
    destruct (Z.leb_spec (doc_pos (nth l doc dummy_doc))
                (doc_pos (nth u doc dummy_doc))) as [Hpq|Hpq]; intros H.
    + inversion H; subst ext'. exists l, u.
      cbn [ext_q ext_p ext_pos ext_begin ext_end].
      repeat split; try reflexivity; try lia.
    + apply Hrec in H. exact H.
  - revert H. cbn [ext_q ext_p ext_pos ext_begin ext_end].
    assert (Ele : (2147483647 <=? doc_pos (nth u doc dummy_doc))%Z = false).
    { apply Z.leb_gt, Hqu. }
    rewrite Ele. intros H. apply Hrec in H. exact H.
Qed.

(** X12: a cover that [cover] reports lies within the document
    representation and within the part not yet consumed: its first and
    last occurrences [begin <= end] come at or after the starting
    [pos]; [p] and [q] are their positions, with [p <= q] and [q > 0];
    and the next search starts right after [begin]. *)
Theorem cover_reports_extent
    (TS_execute : TSQuery -> operandexist -> bool -> bool) (query : TSQuery)
    (doc : list DocRepresentation) (fuel : nat) (ext ext' : Extention) :
  (forall d, In d doc -> (doc_pos d < 2147483647)%Z) ->
  cover TS_execute query fuel doc ext = Some (true, ext') ->
  exists b e,
    ext_begin ext' = Some b /\ ext_end ext' = Some e /\
    (ext_pos ext <= b <= e)%nat /\ (e < length doc)%nat /\
    ext_pos ext' = S b /\
    ext_p ext' = doc_pos (nth b doc dummy_doc) /\
    ext_q ext' = doc_pos (nth e doc dummy_doc) /\
    (ext_p ext' <= ext_q ext')%Z /\ (0 < ext_q ext')%Z.
Proof.
  intros Hpos H.
  exact (cover_success_extent TS_execute query doc fuel Hpos ext ext' H).
Qed.

Lemma cover_reports_extent_witness :
  exists b e,
    Some 0%nat = Some b /\ Some 0%nat = Some e /\
    (0 <= b <= e)%nat /\ (e < 1)%nat /\ 1%nat = S b /\
    1%Z = doc_pos (nth b [mkDoc [0%nat] 3 1] dummy_doc) /\
    1%Z = doc_pos (nth e [mkDoc [0%nat] 3 1] dummy_doc) /\
    (1 <= 1)%Z /\ (0 < 1)%Z.
Proof.
  apply (cover_reports_extent TS_execute_operand query_S1
           [mkDoc [0%nat] 3 1] 2 (mkExt 0 0 0 None None)
           (mkExt 1 1 1 (Some 0%nat) (Some 0%nat))).
  - intros d [<-|[]]. reflexivity.
  - reflexivity.
Defined.

(** No cover is reported where no occurrence has a position above 0. *)
Lemma cover_no_position
    (TS_execute : TSQuery -> operandexist -> bool -> bool) (query : TSQuery)
    (doc : list DocRepresentation) (fuel : nat) (ext : Extention) :
  (forall d, In d doc -> doc_pos d = 0%Z) ->
  cover TS_execute query (S fuel) doc ext
  = Some (false, mkExt (ext_pos ext) 2147483647 0
                       (ext_begin ext) (ext_end ext)).
Proof.
  intros H0. cbn [cover].
  destruct (cover_up TS_execute query (skipn (ext_pos ext) doc)
              (ext_pos ext) (clear_exists query)) as [u|]; [|reflexivity].
  assert (E : doc_pos (nth u doc dummy_doc) = 0%Z).
  { destruct (nth_in_or_default u doc dummy_doc) as [Hin| ->];
      [apply H0, Hin|reflexivity]. }
  rewrite E. reflexivity.
Qed.



(** X13: the cover-density ranker scores 0 every vector that holds no
    position data, for every query, method and evaluator: the dummy
    position of an entry without positions is 0, and [cover] reports a
    cover only where the position is above 0. *)
Theorem calc_rank_cd_no_positions
    (TS_execute : TSQuery -> operandexist -> bool -> bool)
    (win : option ArrayType) (w : list R) (t : TSVector) (q : TSQuery)
    (method : Z) :
  get_weights win = Ok w ->
  (forall e, In e t -> haspos e = false) ->
  calc_rank_cd TS_execute w t q method = Ok 0.
Proof.
  intros Hw Hs. unfold calc_rank_cd.
  destruct (invws_loop_ok w 4 0) as [l Hl].
  { intros k Hk. apply (get_weights_range _ _ Hw). lia. }
  change (length weights) with 4%nat. rewrite Hl.
  destruct (get_docrep t q (repeat false (length q))) as [[doc|] ex'] eqn:E;
    cbn [fst]; [|reflexivity].
  assert (H0 : forall d, In d doc -> doc_pos d = 0%Z).
  { apply Forall_forall.
    apply (get_docrep_Forall (fun d => doc_pos d = 0%Z) t q
             (repeat false (length q)) ex' doc);
      [|exact E].
    intros i e p _ He Hp. unfold entry_positions in Hp.
    rewrite (Hs e He) in Hp. destruct Hp as [<-|[]]. reflexivity. }
  cbn [cd_loop]. rewrite (cover_no_position _ _ _ _ _ H0).
  f_equal.
  unfold calc_rank_cd_norm, norm_rdivrplus1, norm_loguniq, norm_uniq,
    cd_norm_extdist, norm_length, cd_norm_loglength.
  cbn [wdoc n_ext_ent sum_dist Z.gtb Z.compare].
  rewrite andb_false_r.
  repeat match goal with
         | |- context [if ?c then _ else _] => destruct c
         end; unfold Rdiv; rewrite ?Rmult_0_l; try reflexivity.
Qed.

Lemma calc_rank_cd_no_positions_witness :
  calc_rank_cd TS_execute_operand weights doc_stripped query_S1 0 = Ok 0.
Proof.
  apply (calc_rank_cd_no_positions TS_execute_operand None weights
           doc_stripped query_S1 0); [reflexivity|].
  intros e [<-|[<-|[]]]; reflexivity.
Defined.








(** ** The AND ranker on few pairs *)

Lemma and_fold_range (cs : list R) (r : R) :
  Forall (fun c => 0 <= c <= 1) cs ->
  r = -1 \/ 0 <= r <= 1 ->
  (fold_left and_step cs r = -1 /\ cs = [] /\ r = -1) \/
  0 <= fold_left and_step cs r <= 1.
Proof.
  intros H. revert r. induction H as [|c cs Hc Hcs IH]; intros r Hr;
    cbn [fold_left].
  - destruct Hr as [->|Hr]; [left; repeat split|right; exact Hr].
  - right.
    assert (Hs : 0 <= and_step r c <= 1).
    { destruct Hr as [->|Hr].
      - unfold and_step. destruct (Rlt_dec (-1) 0); [exact Hc|lra].
      - apply and_step_range; assumption. }
    destruct (IH (and_step r c) (or_intror Hs)) as [(_ & _ & E)|H];
      [lra|exact H].
Qed.

(** X16: for an AND query with two unique operands or more and weights
    in [0, 1], [calc_rank_and] returns -1 when no pair of positions
    counts, and a score in [0, 1] otherwise; the rank [calc_rank] makes
    of it lies in [0, 1] for every method. *)
Theorem calc_rank_and_range (w : list R) (t : TSVector) (q : TSQuery)
    (method : Z) :
  weights_in_range w ->
  (2 <= length (sort_and_uniq_items q))%nat ->
  ((calc_rank_and w t q = -1 /\ and_curws w t q = []) \/
   (0 <= calc_rank_and w t q <= 1 /\ and_curws w t q <> [])) /\
  (root_is_and q = true -> 0 <= calc_rank w t q method <= 1).
Proof.
  intros Hw Hs.
  pose proof (calc_rank_and_fold w t q Hs) as Hf.
  pose proof (and_curws_range w t q Hw) as Hr.
  assert (Hand : (calc_rank_and w t q = -1 /\ and_curws w t q = []) \/
                 (0 <= calc_rank_and w t q <= 1 /\ and_curws w t q <> [])).
  { rewrite Hf.
    destruct (and_fold_range (and_curws w t q) (-1) Hr (or_introl eq_refl))
      as [(E & En & _)|H]; [left; split; assumption|].
    right. split; [exact H|]. intros En. rewrite En in H. cbn in H. lra. }
  split; [exact Hand|].
  intros Hroot. unfold calc_rank.
  destruct ((length t =? 0)%nat || (length q =? 0)%nat); [lra|].
  rewrite Hroot.
  pose proof (clamp_negative_nonneg (calc_rank_and w t q)) as Hc.
  destruct (calc_rank_norm_bounds method t _ Hc) as [Hn _].
  assert (Hle : clamp_negative (calc_rank_and w t q) <= 1).
  { unfold clamp_negative. destruct (Rlt_dec _ 0); [lra|].
    destruct Hand as [[E _]|[H _]]; lra. }
  lra.
Qed.

Lemma calc_rank_and_range_witness :
  0 <= calc_rank weights doc_S3 query_S3 0 <= 1.
Proof.
  apply (calc_rank_and_range weights doc_S3 query_S3 0);
    [exact weights_default_in_range|vm_compute; lia|reflexivity].
Defined.

Lemma StronglySorted_nth {A : Type} (Rel : A -> A -> Prop) (d : A)
    (l : list A) :
  StronglySorted Rel l ->
  forall i j, (i < j < length l)%nat -> Rel (nth i l d) (nth j l d).
Proof.
  induction 1 as [|a l Hs IH Hf]; intros i j Hij; [cbn in Hij; lia|].
  destruct j as [|j]; [lia|]. cbn [length] in Hij.
  destruct i as [|i]; cbn [nth].
  - rewrite Forall_forall in Hf. apply Hf, nth_In. lia.
  - apply IH. lia.
Qed.

Lemma and_earlier_none (w : list R) (pos : nat -> option posvec) (i : nat)
    (posi : posvec) (res : R) :
  (forall k, (k < i)%nat -> pos k = None) ->
  and_earlier w pos i posi res = res.
Proof.
  intros H. unfold and_earlier.
  assert (G : forall l, (forall k, In k l -> pos k = None) ->
            fold_left
              (fun res k => match pos k with
                            | None => res
                            | Some posk => and_product w posi posk res
                            end) l res = res).
  { induction l as [|k l IH]; intros Hl; cbn [fold_left]; [reflexivity|].
    rewrite (Hl k (or_introl eq_refl)). apply IH.
    intros k' Hk'. apply Hl. right. exact Hk'. }
  apply G. intros k Hk. apply in_seq in Hk. apply H. lia.
Qed.

(** X15: an AND query of two unique operands or more of which one
    string at most is found in the vector pairs no positions:
    [calc_rank_and] returns -1, and the rank of a vector that is not
    empty is the floor [1e-20], normalised by the method. *)
Theorem calc_rank_and_unpaired (w : list R) (t : TSVector) (q : TSQuery)
    (method : Z) (s0 : list byte) :
  (2 <= length (sort_and_uniq_items q))%nat ->
  (forall o, In (QI_VAL o) q -> operand_str o <> s0 ->
             find_wordentry t o = None) ->
  calc_rank_and w t q = -1 /\
  (root_is_and q = true -> t <> [] ->
   calc_rank w t q method = calc_rank_norm method t 1e-20).
Proof.
  intros Hs Hnone.
  set (item := sort_and_uniq_items q).
  set (dflt := mkOperand [] false).
  assert (Hstrict : forall i j, (i < j < length item)%nat ->
            operand_str (nth i item dflt) <> operand_str (nth j item dflt)).
  { intros i j Hij E.
    pose proof (StronglySorted_nth operand_lt dflt item
                  (sort_and_uniq_items_strict q) i j Hij) as Hlt.
    unfold operand_lt in Hlt. rewrite E in Hlt.
    rewrite (proj2 (lexcmp_eq _ _) eq_refl) in Hlt. discriminate. }
  assert (Hfound : forall i, (i < length item)%nat ->
            find_wordentry t (nth i item dflt) <> None ->
            operand_str (nth i item dflt) = s0).
  { intros i Hi Hf.
    destruct (lexcmp (operand_str (nth i item dflt)) s0) eqn:E;
      [apply lexcmp_eq, E| |]; exfalso; apply Hf, Hnone;
      try (apply collect_operands_In, In_sort_and_uniq_items, nth_In, Hi);
      intros E'; rewrite E' in E;
      rewrite (proj2 (lexcmp_eq _ _) eq_refl) in E; discriminate. }
  assert (Hand : calc_rank_and w t q = -1).
  { unfold calc_rank_and. fold item.
    destruct (Nat.ltb_spec (length item) 2) as [Hlt|_]; [unfold item in Hlt; lia|].
    assert (G : forall l s,
              (forall i, In i l -> (i < length item)%nat) ->
              snd s = -1 ->
              (forall k, fst s k <> None ->
                 (k < length item)%nat /\
                 operand_str (nth k item dflt) = s0) ->
              snd (fold_left (and_operand w t item) l s) = -1).
    { induction l as [|i l IH]; intros s Hl Hres Hpos; cbn [fold_left];
        [exact Hres|].
      assert (Hi : (i < length item)%nat) by (apply Hl; left; reflexivity).
      assert (Hstep : snd (and_operand w t item s i) = -1 /\
                forall k, fst (and_operand w t item s i) k <> None ->
                  (k < length item)%nat /\
                  operand_str (nth k item dflt) = s0).
      { unfold and_operand. fold dflt.
        destruct (find_wordentry t (nth i item dflt)) as [[first nitem]|]
          eqn:Ef; [|split; assumption].
        assert (Hi0 : operand_str (nth i item dflt) = s0).
        { apply Hfound; [exact Hi|]. rewrite Ef. discriminate. }
        clear Ef. revert s Hres Hpos.
        induction (entry_run t first nitem) as [|e es IHe];
          intros s Hres Hpos; cbn [fold_left]; [split; assumption|].
        apply IHe; unfold and_entry; cbn [fst snd].
        - rewrite and_earlier_none; [exact Hres|].
          intros k Hk. unfold set_pos.
          destruct (Nat.eqb_spec k i) as [->|Hne]; [lia|].
          destruct (fst s k) eqn:Ek; [|reflexivity].
          exfalso. destruct (Hpos k) as [Hk1 Hk2]; [congruence|].
          apply (Hstrict k i); [lia|congruence].
        - intros k. unfold set_pos.
          destruct (Nat.eqb_spec k i) as [->|Hne]; [intros _; auto|].
          apply Hpos. }
      destruct Hstep as [H1 H2].
      apply IH; [intros i' Hi'; apply Hl; right; exact Hi'|exact H1|exact H2]. }
    apply G; [intros i Hi; apply in_seq in Hi; lia|reflexivity|].
    cbn [fst]. intros k Hk. congruence. }
  split; [exact Hand|].
  intros Hroot Ht. unfold calc_rank.
  assert (Hne : (length t =? 0)%nat = false) by (destruct t; [congruence|reflexivity]).
  assert (Hq : (length q =? 0)%nat = false).
  { destruct q as [|x q']; [discriminate Hroot|reflexivity]. }
  rewrite Hne, Hq, Hroot, Hand. cbn [orb].
  unfold clamp_negative. destruct (Rlt_dec (-1) 0); [reflexivity|lra].
Qed.

Lemma calc_rank_and_unpaired_witness :
  calc_rank weights doc_a query_S3 0 = calc_rank_norm 0 doc_a 1e-20.
Proof.
  apply (calc_rank_and_unpaired weights doc_a query_S3 0 ["a"]%byte).
  - vm_compute. lia.
  - intros o [H|[H|[H|[]]]] Hne; inversion H; subst o;
      [reflexivity|exfalso; apply Hne; reflexivity].
  - reflexivity.
  - discriminate.
Defined.

(** ** Operands that are not found *)

Lemma calc_rank_norm_zero (method : Z) (t : TSVector) :
  calc_rank_norm method t 0 = 0.
Proof.
  destruct (calc_rank_norm_bounds method t 0 ltac:(lra)) as [H _]. lra.
Qed.

(** X18: when no operand of the query is found in the vector the OR
    ranker returns 0, and so does [calc_rank], for every method, on
    every query whose root is not an AND operator: an operand that is
    missing raises no error and adds nothing. *)
Theorem calc_rank_or_nomatch (w : list R) (t : TSVector) (q : TSQuery)
    (method : Z) :
  (forall o, In (QI_VAL o) q -> find_wordentry t o = None) ->
  calc_rank_or w t q = 0 /\
  (root_is_and q = false -> calc_rank w t q method = 0).
Proof.
  intros Hnone.
  assert (Hor : calc_rank_or w t q = 0).
  { unfold calc_rank_or.
    assert (G : forall l, (forall o, In o l -> find_wordentry t o = None) ->
              fold_left (or_operand w t) l 0 = 0).
    { induction l as [|o l IH]; intros Hl; cbn [fold_left]; [reflexivity|].
      unfold or_operand at 2. rewrite (Hl o (or_introl eq_refl)).
      apply IH. intros o' Ho'. apply Hl. right. exact Ho'. }
    rewrite G.
    - destruct (0 <? length (sort_and_uniq_items q))%nat; [|reflexivity].
      unfold Rdiv. apply Rmult_0_l.
    - intros o Ho. apply Hnone, collect_operands_In,
        In_sort_and_uniq_items, Ho. }
  split; [exact Hor|].
  intros Hroot. unfold calc_rank.
  destruct ((length t =? 0)%nat || (length q =? 0)%nat); [reflexivity|].
  rewrite Hroot, Hor. unfold clamp_negative.
  destruct (Rlt_dec 0 0); [lra|]. apply calc_rank_norm_zero.
Qed.

Lemma calc_rank_or_nomatch_witness :
  calc_rank weights doc_S3 query_S1 63 = 0.
Proof.
  apply (calc_rank_or_nomatch weights doc_S3 query_S1 63).
  - intros o [H|[]]. inversion H. reflexivity.
  - reflexivity.
Defined.

(** ** What a cover satisfies *)

Section CoverScans.

Variable TS_execute : TSQuery -> operandexist -> bool -> bool.
Variable query : TSQuery.

Lemma cover_up_spec (l : list DocRepresentation) (idx : nat)
    (ex : operandexist) (u : nat) :
  cover_up TS_execute query l idx ex = Some u ->
  TS_execute query
    (fold_left (mark_items query) (firstn (S (u - idx)) l) ex) false = true /\
  forall v, (idx <= v < u)%nat ->
    TS_execute query
      (fold_left (mark_items query) (firstn (S (v - idx)) l) ex) false
    = false.
Proof.
  revert idx ex. induction l as [|d l IH]; intros idx ex H;
    cbn [cover_up] in H; [discriminate|].
  destruct (TS_execute query (mark_items query ex d) false) eqn:E.
  - inversion H; subst u. rewrite Nat.sub_diag. cbn [firstn fold_left].
    split; [exact E|]. intros v Hv. lia.
  - pose proof (cover_up_range _ _ _ _ _ _ H) as Hr.
    destruct (IH _ _ H) as [H1 H2].
    replace (u - idx)%nat with (S (u - S idx)) by lia.
    cbn [firstn fold_left]. split; [exact H1|].
    intros v Hv. destruct (Nat.eq_dec v idx) as [->|Hne].
    + rewrite Nat.sub_diag. cbn [firstn fold_left]. exact E.
    + replace (v - idx)%nat with (S (v - S idx)) by lia.
      cbn [firstn fold_left]. apply H2. lia.
Qed.

Lemma rev_seq_S (l k : nat) : rev (seq l (S k)) = (l + k)%nat :: rev (seq l k).
Proof. rewrite seq_S, rev_app_distr. reflexivity. Qed.

Lemma cover_down_spec (doc : list DocRepresentation) (n ptr : nat)
    (ex : operandexist) (l : nat) :
  (n <= S ptr)%nat ->
  cover_down TS_execute query doc n ptr ex = Some l ->
  TS_execute query
    (fold_left (mark_items query)
       (map (fun k => nth k doc dummy_doc) (rev (seq l (S (ptr - l))))) ex)
    true = true /\
  forall l', (l < l' <= ptr)%nat ->
    TS_execute query
      (fold_left (mark_items query)
         (map (fun k => nth k doc dummy_doc) (rev (seq l' (S (ptr - l'))))) ex)
      true = false.
Proof.
  revert ptr ex. induction n as [|n IH]; intros ptr ex Hn H;
    cbn [cover_down] in H; [discriminate|].
  destruct (TS_execute query (mark_items query ex (nth ptr doc dummy_doc)) true)
    eqn:E.
  - inversion H; subst l. rewrite Nat.sub_diag. cbn [seq rev app map fold_left].
    split; [exact E|]. intros l' Hl'. lia.
  - pose proof (cover_down_range _ _ _ _ _ _ _ H) as Hle.
    pose proof (cover_down_lower _ _ _ _ _ _ _ H) as Hlo.
    assert (Hn' : (n <= S (ptr - 1))%nat) by lia.
    destruct (IH _ _ Hn' H) as [H1 H2].
    assert (Hstep : forall k, (k < ptr)%nat ->
              fold_left (mark_items query)
                (map (fun i => nth i doc dummy_doc)
                     (rev (seq k (S (ptr - k))))) ex
              = fold_left (mark_items query)
                  (map (fun i => nth i doc dummy_doc)
                       (rev (seq k (S (ptr - 1 - k)))))
                  (mark_items query ex (nth ptr doc dummy_doc))).
    { intros k Hk. rewrite rev_seq_S.
      replace (k + (ptr - k))%nat with ptr by lia.
      replace (ptr - k)%nat with (S (ptr - 1 - k)) by lia.
      reflexivity. }
    split.
    + rewrite Hstep by lia. exact H1.
    + intros l' Hl'. destruct (Nat.eq_dec l' ptr) as [->|Hne].
      * rewrite Nat.sub_diag. cbn [seq rev app map fold_left]. exact E.
      * rewrite Hstep by lia. apply H2. lia.
Qed.

Lemma cover_success_scans (doc : list DocRepresentation) (fuel : nat) :
  (forall d, In d doc -> (doc_pos d < 2147483647)%Z) ->
  forall ext ext',
    cover TS_execute query fuel doc ext = Some (true, ext') ->
    exists start b e,
      ext_begin ext' = Some b /\ ext_end ext' = Some e /\
      (ext_pos ext <= start <= b)%nat /\ (b <= e < length doc)%nat /\
      TS_execute query (flags_up query doc start e) false = true /\
      (forall u, (start <= u < e)%nat ->
         TS_execute query (flags_up query doc start u) false = false) /\
      TS_execute query (flags_down query doc e b) true = true /\
      (forall l, (b < l <= e)%nat ->
         TS_execute query (flags_down query doc e l) true = false).
Proof.
  intros Hpos. induction fuel as [|fuel IH]; intros ext ext' H;
    [discriminate|].
  cbn [cover] in H.
  destruct (cover_up TS_execute query (skipn (ext_pos ext) doc)
              (ext_pos ext) (clear_exists query)) as [u|] eqn:Eup;
    [|discriminate].
  pose proof (cover_up_range _ _ _ _ _ _ Eup) as Hr.
  rewrite length_skipn in Hr.
  destruct (cover_up_spec _ _ _ _ Eup) as [Hup1 Hup2].
  assert (Hqu : (doc_pos (nth u doc dummy_doc) < 2147483647)%Z).
  { apply Hpos, nth_In. lia. }
  assert (Hrec : forall p q b e,
            cover TS_execute query fuel doc
              (mkExt (S (ext_pos ext)) p q b e) = Some (true, ext') ->
            exists start b e,
              ext_begin ext' = Some b /\ ext_end ext' = Some e /\
              (ext_pos ext <= start <= b)%nat /\ (b <= e < length doc)%nat /\
              TS_execute query (flags_up query doc start e) false = true /\
              (forall u, (start <= u < e)%nat ->
                 TS_execute query (flags_up query doc start u) false = false) /\
              TS_execute query (flags_down query doc e b) true = true /\
              (forall l, (b < l <= e)%nat ->
                 TS_execute query (flags_down query doc e l) true = false)).
  { intros p q b e Hc. apply IH in Hc.
    destruct Hc as (start & b' & e' & H1 & H2 & H3 & H4).
    cbn [ext_pos] in H3. exists start, b', e'.
    repeat split; try tauto; lia. }
  cbn [ext_q ext_p ext_pos ext_begin ext_end] in H.
  destruct (doc_pos (nth u doc dummy_doc) >? 0)%Z; [|discriminate].
  destruct (cover_down TS_execute query doc (S u - ext_pos ext) u
              (clear_exists query)) as [l|] eqn:Edown.
  - pose proof (cover_down_range _ _ _ _ _ _ _ Edown) as Hle.
    pose proof (cover_down_lower _ _ _ _ _ _ _ Edown) as Hlo.
    assert (Hn : (S u - ext_pos ext <= S u)%nat) by lia.
    destruct (cover_down_spec _ _ _ _ _ Hn Edown) as [Hd1 Hd2].
    assert (Hpl : (doc_pos (nth l doc dummy_doc) <? 2147483647)%Z = true).
    { apply Z.ltb_lt, Hpos, nth_In. lia. }
    revert H. cbn [ext_q ext_p ext_pos ext_begin ext_end]. rewrite Hpl.
    cbn [ext_q ext_p ext_pos ext_begin ext_end].
    destruct (doc_pos (nth l doc dummy_doc) <=? doc_pos (nth u doc dummy_doc))%Z;
      intros H.
    + inversion H; subst ext'. exists (ext_pos ext), l, u.
      cbn [ext_begin ext_end]. unfold flags_up, flags_down.
      repeat split; try lia.
      * replace (S u - ext_pos ext)%nat with (S (u - ext_pos ext)) by lia.
        exact Hup1.
      * intros v Hv.
        replace (S v - ext_pos ext)%nat with (S (v - ext_pos ext)) by lia.
        apply Hup2, Hv.
      * replace (S u - l)%nat with (S (u - l)) by lia. exact Hd1.
      * intros l' Hl'.
        replace (S u - l')%nat with (S (u - l')) by lia. apply Hd2, Hl'.
    + apply Hrec in H. exact H.
  - revert H. cbn [ext_q ext_p ext_pos ext_begin ext_end].
    assert (Ele : (2147483647 <=? doc_pos (nth u doc dummy_doc))%Z = false).
    { apply Z.leb_gt, Hqu. }
    rewrite Ele. intros H. apply Hrec in H. exact H.
Qed.

End CoverScans.

(** X19: a cover that [cover] reports satisfies the query in both modes
    of the evaluator and is as short as the scans can make it: from
    some start at or after the starting [pos], [end] is the first
    occurrence at which the query holds on the operands seen since the
    start, and [begin] is the first occurrence, going down from [end],
    at which it holds on the operands seen since [end]. *)
Theorem cover_satisfies_query
    (TS_execute : TSQuery -> operandexist -> bool -> bool) (query : TSQuery)
    (doc : list DocRepresentation) (fuel : nat) (ext ext' : Extention) :
  (forall d, In d doc -> (doc_pos d < 2147483647)%Z) ->
  cover TS_execute query fuel doc ext = Some (true, ext') ->
  exists start b e,
    ext_begin ext' = Some b /\ ext_end ext' = Some e /\
    (ext_pos ext <= start <= b)%nat /\ (b <= e < length doc)%nat /\
    TS_execute query (flags_up query doc start e) false = true /\
    (forall u, (start <= u < e)%nat ->
       TS_execute query (flags_up query doc start u) false = false) /\
    TS_execute query (flags_down query doc e b) true = true /\
    (forall l, (b < l <= e)%nat ->
       TS_execute query (flags_down query doc e l) true = false).
Proof.
  intros Hpos H.
  exact (cover_success_scans TS_execute query doc fuel Hpos ext ext' H).
Qed.

Lemma cover_satisfies_query_witness :
  exists start b e,
    Some 0%nat = Some b /\ Some 0%nat = Some e /\
    (0 <= start <= b)%nat /\ (b <= e < 1)%nat /\
    TS_execute_operand query_S1
      (flags_up query_S1 [mkDoc [0%nat] 3 1] start e) false = true /\
    (forall u, (start <= u < e)%nat ->
       TS_execute_operand query_S1
         (flags_up query_S1 [mkDoc [0%nat] 3 1] start u) false = false) /\
    TS_execute_operand query_S1
      (flags_down query_S1 [mkDoc [0%nat] 3 1] e b) true = true /\
    (forall l, (b < l <= e)%nat ->
       TS_execute_operand query_S1
         (flags_down query_S1 [mkDoc [0%nat] 3 1] e l) true = false).
Proof.
  apply (cover_satisfies_query TS_execute_operand query_S1
           [mkDoc [0%nat] 3 1] 2 (mkExt 0 0 0 None None)
           (mkExt 1 1 1 (Some 0%nat) (Some 0%nat))).
  - intros d [<-|[]]. reflexivity.
  - reflexivity.
Defined.
